(** * Bigram name generator (main.py): model and verification

    The script reads a list of names, counts character bigrams in an
    int32 matrix, normalises every row into a probability row and walks
    the resulting Markov chain from the boundary symbol '^' until '^' is
    drawn again.  Every step of the script is embedded below as a Rocq
    function that follows the Python text; exceptions (KeyError,
    IndexError, RuntimeError) are the [None] of the option monad. *)

From Stdlib Require Import ZArith QArith Lia Lqa.
From stdpp Require Import base option list sorting gmap.

Local Open Scope Z_scope.

(** ** Data *)

(** A Python character is a Unicode code point; [sorted] orders them by
    code point.  A name is the list of its characters. *)
Abbreviation char := N (only parsing).
Abbreviation name := (list N) (only parsing).

(** The special token '^' (code point 94), and the line feed that
    [print()] writes. *)
Definition boundary : char := 94%N.
Definition newline : char := 10%N.

(** The int32 count matrix and the float matrix derived from it. *)
Abbreviation counts := (list (list Z)) (only parsing).

(** [dtype=torch.int32]: arithmetic wraps around in two's complement. *)
Definition wrap32 (z : Z) : Z := (z + 2 ^ 31) mod 2 ^ 32 - 2 ^ 31.

(** A float tensor entry.  Finite values are kept as exact rationals
    (rounding is not modelled); the IEEE special values that a division
    by zero produces are explicit. *)
Inductive fp : Type :=
| Fin (q : Q)
| Inf (negative : bool)
| NaN.

(** ** Step 1-3: vocabulary *)

(** [characters = sorted(list(set("".join(words))))] *)
Definition characters (words : list name) : list char :=
  merge_sort N.le (elements (list_to_set (C := gset N) (mjoin words))).

(** [vocab_size = len(characters) + 1] *)
Definition vocab_size (words : list name) : nat :=
  (length (characters words) + 1)%nat.

(** [stoi = { s: i+1 for i, s in enumerate(characters) }; stoi['^'] = 0] *)
Definition stoi (words : list name) : gmap N nat :=
  <[boundary := 0%nat]>
    (list_to_map (imap (λ i s, (s, (i + 1)%nat)) (characters words))).

(** [itos = { i: s for s, i in stoi.items() }] *)
Definition itos (words : list name) : gmap nat N :=
  list_to_map ((λ si : N * nat, (si.2, si.1)) <$> map_to_list (stoi words)).

(** [torch.zeros((vocab_size, vocab_size), dtype=torch.int32)] *)
Definition zeros (n : nat) : counts := replicate n (replicate n 0).

(** ** Step 4: counting *)

(** A [for] loop whose body may raise. *)
Fixpoint for_each {A S : Type} (body : S → A → option S) (s : S) (l : list A)
  : option S :=
  match l with
  | [] => Some s
  | x :: l' => s' ← body s x; for_each body s' l'
  end.

(** [bigram_counts[ix1][ix2] += 1]; an index outside the matrix raises. *)
Definition incr (t : counts) (ix1 ix2 : nat) : option counts :=
  row ← t !! ix1;
  c ← row !! ix2;
  Some (<[ix1 := <[ix2 := wrap32 (c + 1)]> row]> t).

(** [padded_name = ['^'] + list(name) + ['^']] *)
Definition padded_name (nm : name) : list char :=
  [boundary] ++ nm ++ [boundary].

(** [zip(padded_name, padded_name[1:])] *)
Definition bigrams (nm : name) : list (char * char) :=
  zip (padded_name nm) (tail (padded_name nm)).

(** The body of the inner loop; a character missing from [stoi] raises. *)
Definition count_bigram (st : gmap N nat) (t : counts) (b : char * char)
  : option counts :=
  ix1 ← st !! b.1;
  ix2 ← st !! b.2;
  incr t ix1 ix2.

Definition count_name (st : gmap N nat) (t : counts) (nm : name)
  : option counts :=
  for_each (count_bigram st) t (bigrams nm).

(** [for name in words: ...] started from the zero matrix. *)
Definition bigram_counts (words : list name) : option counts :=
  for_each (count_name (stoi words)) (zeros (vocab_size words)) words.

(** ** Step 5: normalisation *)

Definition Qsum (l : list Q) : Q := foldr Qplus 0%Q l.

(** Float division with its IEEE special cases. *)
Definition fdiv (a b : Q) : fp :=
  if Qeq_bool b 0 then
    if Qeq_bool a 0 then NaN else Inf (negb (Qle_bool 0 a))
  else Fin (a / b).

(** [bigram_counts.float()], without the rounding to float32: a count
    beyond 2^24 and a row sum are kept exact here.  The properties below
    that read the probability table are stated where this cannot show:
    on rows that are all 0, and on the sign and finiteness of the
    entries of a corpus whose counts did not wrap. *)
Definition float_ (t : counts) : list (list Q) :=
  (λ row : list Z, inject_Z <$> row) <$> t.

(** [m / m.sum(1, keepdim=True)] *)
Definition normalize_row (row : list Q) : list fp :=
  (λ x, fdiv x (Qsum row)) <$> row.

Definition normalize (t : counts) : list (list fp) :=
  normalize_row <$> float_ t.

Definition normalized_bigram_counts (words : list name)
  : option (list (list fp)) :=
  normalize <$> bigram_counts words.

(** Sum of all the cells of a count matrix, and its row sums. *)
Definition row_sum (row : list Z) : Z := foldr Z.add 0 row.
Definition table_sum (t : counts) : Z := row_sum (row_sum <$> t).

(** Number of bigram increments a corpus asks for: len(name) + 1 each. *)
Definition total_bigrams (words : list name) : Z :=
  foldr (λ nm acc, Z.of_nat (length nm) + 1 + acc) 0 words.

Definition int32_max : Z := 2 ^ 31 - 1.

(** ** Step 6: sampling *)

(** What [torch.multinomial] accepts: every weight finite and
    non-negative, and a weight sum that is not zero; anything else
    raises a RuntimeError.  The accepted weights are returned. *)
Definition weight (x : fp) : option Q :=
  match x with
  | Fin q => if Qle_bool 0 q then Some q else None
  | _ => None
  end.

Definition multinomial_weights (probs : list fp) : option (list Q) :=
  ws ← mapM weight probs;
  if Qeq_bool (Qsum ws) 0 then None else Some ws.

(** The script as far as the probability table: vocabulary, counts,
    normalisation. *)
Record model : Type := Model {
  m_vocab_size : nat;
  m_stoi : gmap N nat;
  m_itos : gmap nat N;
  m_counts : list (list Z);
  m_probs : list (list fp)
}.

Definition build (words : list name) : option model :=
  t ← bigram_counts words;
  Some (Model (vocab_size words) (stoi words) (itos words) t (normalize t)).

(** *** The loop, one draw at a time

    [torch.multinomial] reads and advances the global generator; it is
    a parameter here: a function of the weights and of the generator
    state that returns the drawn index and the next state, or raises. *)
Section Sampler.
Context {gen : Type}.
Variable multinomial : list fp → gen → option (nat * gen).
Variable probs : list (list fp).
Variable its : gmap nat N.

(** The loop state: the current index, the generator, what has been
    printed so far. *)
Record walk : Type := Walk {
  sampled_index : nat;
  rng : gen;
  printed : list N
}.

(** One iteration of [while True]: [inl] goes round again, [inr] is
    the state at [break], after [print()] has ended the line; [None]
    is an exception. *)
Definition sampler_step (w : walk) : option (walk + walk) :=
  row ← probs !! sampled_index w;
  d ← multinomial row (rng w);
  s ← its !! d.1;
  if decide (s = boundary)
  then Some (inr (Walk d.1 d.2 (printed w ++ [newline])))
  else Some (inl (Walk d.1 d.2 (printed w ++ [s]))).

(** [generates w ds w']: started in [w] the loop draws the indices
    [ds], in this order, and leaves through [break] in state [w']. *)
Inductive generates : walk → list nat → walk → Prop :=
| generates_break w w' :
    sampler_step w = Some (inr w') →
    generates w [sampled_index w'] w'
| generates_again w w1 ds w' :
    sampler_step w = Some (inl w1) →
    generates w1 ds w' →
    generates w (sampled_index w1 :: ds) w'.

(** The same loop run for at most [fuel] iterations. *)
Fixpoint generate (fuel : nat) (w : walk) : option (list nat * walk) :=
  match fuel with
  | O => None
  | S fuel' =>
      match sampler_step w with
      | None => None
      | Some (inr w') => Some ([sampled_index w'], w')
      | Some (inl w1) =>
          r ← generate fuel' w1; Some (sampled_index w1 :: r.1, r.2)
      end
  end.
End Sampler.

Arguments Walk {gen} _ _ _.
Arguments sampled_index {gen} _.
Arguments rng {gen} _.
Arguments printed {gen} _.

(** A generator that replays a recorded list of draws; it raises when
    the record is exhausted or the weights are rejected. *)
Definition replay (probs : list fp) (g : list nat) : option (nat * list nat) :=
  _ ← multinomial_weights probs;
  match g with
  | [] => None
  | d :: g' => Some (d, g')
  end.

(** *** The loop as a Markov chain

    [torch.multinomial] draws index [j] with probability
    [w_j / sum w].  [expectation ws v] is the mean of [v j] over one
    such draw. *)
Fixpoint weighted_sum (total : Q) (v : nat → Q) (j : nat) (ws : list Q) : Q :=
  match ws with
  | [] => 0
  | w :: ws' => w / total * v j + weighted_sum total v (S j) ws'
  end%Q.

Definition expectation (ws : list Q) (v : nat → Q) : Q :=
  weighted_sum (Qsum ws) v 0%nat ws.

(** What follows the draw of index [j]: [itos[j]] raises for an index
    without symbol, the loop ends when the symbol is '^', and goes on
    from [j] (with value [k j]) otherwise. *)
Definition after_draw (its : gmap nat N) (k : nat → Q) (j : nat) : Q :=
  match its !! j with
  | None => 0
  | Some c => if decide (c = boundary) then 1 else k j
  end%Q.

(** [token_prob tbl its n s] is the probability that the loop, entered
    with [sampled_index = s], reaches [break] within [n] draws; a draw
    that raises contributes nothing. *)
Fixpoint token_prob (tbl : list (list fp)) (its : gmap nat N)
    (n : nat) (s : nat) : Q :=
  match n with
  | O => 0%Q
  | S n' =>
      match tbl !! s ≫= multinomial_weights with
      | None => 0%Q
      | Some ws => expectation ws (after_draw its (token_prob tbl its n'))
      end
  end.

(** * Specification vocabulary

    The predicates in which the properties below are stated. *)

(** The vocabulary contract: [stoi] is a bijection between the symbols
    (['^'] and the characters of the corpus) and the indices below
    [vocab_size], [itos] is its inverse, ['^'] sits at index 0 and no
    character of the corpus shares that index. *)
Definition vocabulary_ok (words : list (list N)) : Prop :=
  vocab_size words = (size (list_to_set (C := gset N) (mjoin words)) + 1)%nat ∧
  (∀ c n, stoi words !! c = Some n → (n < vocab_size words)%nat) ∧
  (∀ c1 c2 n,
      stoi words !! c1 = Some n → stoi words !! c2 = Some n → c1 = c2) ∧
  (∀ n, (n < vocab_size words)%nat → ∃ c, stoi words !! c = Some n) ∧
  (∀ n c, itos words !! n = Some c ↔ stoi words !! c = Some n) ∧
  stoi words !! boundary = Some 0%nat ∧
  (∀ c, c ∈ mjoin words → ∃ n, stoi words !! c = Some n ∧ n ≠ 0%nat).

(** [cell t i j] reads [t[i][j]]. *)
Definition cell (t : list (list Z)) (i j : nat) : option Z :=
  t !! i ≫= (.!! j).

(** A matrix of shape (n, n). *)
Definition square (n : nat) (t : list (list Z)) : Prop :=
  length t = n ∧ Forall (λ r : list Z, length r = n) t.

(** All the bigrams of the corpus, in the order the loops visit them. *)
Definition all_bigrams (words : list (list N)) : list (N * N) :=
  mjoin (bigrams <$> words).

(** How many of the bigrams [bs] are counted in cell (i, j). *)
Definition occ (st : gmap N nat) (bs : list (N * N)) (i j : nat) : Z :=
  Z.of_nat (length
    (filter (λ b : N * N, st !! b.1 = Some i ∧ st !! b.2 = Some j) bs)).

(** Both characters of every bigram have an index below [n]. *)
Definition indexed (st : gmap N nat) (n : nat) (bs : list (N * N)) : Prop :=
  Forall (λ b : N * N, ∃ i j, st !! b.1 = Some i ∧ st !! b.2 = Some j ∧
                             (i < n)%nat ∧ (j < n)%nat) bs.

(** No bigram of the corpus occurs more often than an int32 holds. *)
Definition no_wrap (words : list (list N)) : Prop :=
  ∀ i j, occ (stoi words) (all_bigrams words) i j ≤ int32_max.

(** [g 0 + ... + g (n - 1)] *)
Definition sum_upto (n : nat) (g : nat → Z) : Z := row_sum (g <$> seq 0 n).

(** The property of C10 for one corpus: counting succeeds and the cells
    add up to the number of bigrams, len(name) + 1 for every name. *)
Definition counts_sum_ok (words : list (list N)) : Prop :=
  ∃ t, bigram_counts words = Some t ∧ table_sum t = total_bigrams words.

(** An entry that is not finite: what a division by a zero row sum
    leaves. *)
Definition special (x : fp) : Prop := x = NaN ∨ ∃ b, x = Inf b.

(** A uniform row: every entry is 1 / len(row). *)
Definition uniform (row : list fp) : Prop :=
  Forall (λ x, ∃ q, x = Fin q ∧ (q * inject_Z (Z.of_nat (length row)) == 1)%Q)
         row.

(** Index [i] of the matrix never occurs as a predecessor: no bigram of
    the corpus starts with a symbol of that index. *)
Definition never_predecessor (words : list (list N)) (i : nat) : Prop :=
  (i < vocab_size words)%nat ∧
  ∀ b : N * N, b ∈ all_bigrams words → stoi words !! b.1 ≠ Some i.

(** The zero-row policy of C3 for one corpus: for every index that
    never occurs as a predecessor, either the build raises or the row
    of that index in the probability table is the uniform
    distribution. *)
Definition zero_row_policy (words : list (list N)) : Prop :=
  ∀ i, never_predecessor words i →
    build words = None ∨
    ∃ m row, build words = Some m ∧ m_probs m !! i = Some row ∧ uniform row.

(** The consecutive pairs of [c :: l]. *)
Fixpoint pairs_from (c : N) (l : list N) : list (N * N) :=
  match l with
  | [] => []
  | d :: l' => (c, d) :: pairs_from d l'
  end.

(** [route bs c n]: starting with character [c], [n] bigrams of [bs]
    chained one after the other end in '^'. *)
Inductive route (bs : list (N * N)) : N → nat → Prop :=
| route_end c : (c, boundary) ∈ bs → route bs c 1
| route_next c d n : (c, d) ∈ bs → route bs d n → route bs c (S n).

(** The states the walk can be in: the indices of '^' and of the
    characters of the corpus. *)
Definition visited (words : list (list N)) (s : nat) : Prop :=
  ∃ c, (c = boundary ∨ c ∈ mjoin words) ∧ stoi words !! c = Some s.

(** The property of C2 for one corpus: the model is built and, started
    at index 0, the sampling loop reaches [break] with probability 1 --
    the probability of a stop within [n] draws exceeds every bound
    below 1 for all large [n]. *)
Definition terminates_almost_surely (words : list (list N)) : Prop :=
  ∃ m, build words = Some m ∧
    ∀ ε : Q, (0 < ε)%Q →
      ∃ n0, ∀ n, (n0 ≤ n)%nat →
        (1 - ε <= token_prob (m_probs m) (m_itos m) n 0)%Q.

(** The corpus of [n] names "a" followed by one empty name. *)
Definition many_a (n : nat) : list (list N) := replicate n [97%N] ++ [[]].

(** How often [d] follows [c] in the padded names of the corpus. *)
Definition transitions (words : list (list N)) (c d : N) : Z :=
  Z.of_nat (length (filter (λ b : N * N, b = (c, d)) (all_bigrams words))).

(** What the script relies on in [torch.multinomial]: an index is only
    drawn from weights the function accepts, and it has positive
    weight. *)
Definition lawful {gen : Type}
    (multinomial : list fp → gen → option (nat * gen)) : Prop :=
  ∀ row g d, multinomial row g = Some d →
    ∃ ws w, multinomial_weights row = Some ws ∧ ws !! d.1 = Some w ∧ (0 < w)%Q.

(** A replaying generator that, like [torch.multinomial], never draws an
    index of weight zero. *)
Definition replay_positive (probs : list fp) (g : list nat)
  : option (nat * list nat) :=
  ws ← multinomial_weights probs;
  match g with
  | [] => None
  | d :: g' =>
      w ← ws !! d;
      if Qlt_le_dec 0 w then Some (d, g') else None
  end.

(** The states the loop passes through from [w] on. *)
Inductive reaches {gen : Type}
    (multinomial : list fp → gen → option (nat * gen))
    (probs : list (list fp)) (its : gmap nat N)
  : walk (gen := gen) → walk (gen := gen) → Prop :=
| reaches_here w : reaches multinomial probs its w w
| reaches_step w w1 w2 :
    sampler_step multinomial probs its w = Some (inl w1) →
    reaches multinomial probs its w1 w2 →
    reaches multinomial probs its w w2.

(** [bigram_counts.sum(0)[j]]: the sum of column [j]. *)
Definition column_sum (t : list (list Z)) (j : nat) : Z :=
  row_sum ((λ r : list Z, default 0 (r !! j)) <$> t).

(** How often the symbol [c] stands in the padded names without their
    last element: its occurrences in the corpus, and one per name for
    '^'. *)
Definition symbol_count (words : list (list N)) (c : N) : Z :=
  Z.of_nat (length (filter (λ x : N, x = c) (mjoin words)))
  + (if decide (c = boundary) then Z.of_nat (length words) else 0).

(** * Properties *)

(** ** Vocabulary *)

Section Vocabulary.
Variable words : list (list N).

Lemma characters_NoDup : NoDup (characters words).
Proof.
  unfold characters. rewrite merge_sort_Permutation. apply NoDup_elements.
Qed.

Lemma elem_of_characters c : c ∈ characters words ↔ c ∈ mjoin words.
Proof.
  unfold characters.
  rewrite merge_sort_Permutation, elem_of_elements, elem_of_list_to_set.
  reflexivity.
Qed.

(** The dictionary comprehension, before ['^'] is bound. *)
Lemma enumerate_lookup c n :
  list_to_map (M := gmap N nat)
    (imap (λ i s, (s, (i + 1)%nat)) (characters words)) !! c = Some n
  ↔ ∃ i, n = (i + 1)%nat ∧ characters words !! i = Some c.
Proof.
  rewrite <- elem_of_list_to_map.
  - rewrite elem_of_lookup_imap. split.
    + intros (i & s & Heq & Hs). inversion Heq; subst. eauto.
    + intros (i & -> & Hs). eauto.
  - rewrite fmap_imap.
    rewrite (imap_ext _ (const id)) by done.
    rewrite imap_const, list_fmap_id. apply characters_NoDup.
Qed.

Lemma stoi_lookup c n :
  stoi words !! c = Some n ↔
    (c = boundary ∧ n = 0%nat) ∨
    (c ≠ boundary ∧ ∃ i, n = (i + 1)%nat ∧ characters words !! i = Some c).
Proof.
  unfold stoi. destruct (decide (c = boundary)) as [->|Hc].
  - rewrite lookup_insert_eq. split.
    + intros [= <-]. by left.
    + intros [[_ ->]|[? _]]; done.
  - rewrite lookup_insert_ne by done. rewrite enumerate_lookup. split.
    + intros ?. by right.
    + intros [[? _]|[_ ?]]; done.
Qed.

Lemma stoi_boundary : stoi words !! boundary = Some 0%nat.
Proof. apply stoi_lookup. by left. Qed.

Lemma stoi_inj c1 c2 n :
  stoi words !! c1 = Some n → stoi words !! c2 = Some n → c1 = c2.
Proof.
  rewrite !stoi_lookup.
  intros [[-> ->]|[_ (i & -> & Hi)]] [[-> Hn]|[_ (j & Hn & Hj)]];
    try done; try lia.
  assert (i = j) as -> by lia. congruence.
Qed.

Lemma stoi_lt c n : stoi words !! c = Some n → (n < vocab_size words)%nat.
Proof.
  unfold vocab_size. rewrite stoi_lookup.
  intros [[_ ->]|[_ (i & -> & Hi%lookup_lt_Some)]]; lia.
Qed.

(** Every character of the corpus, and ['^'], has an index. *)
Lemma stoi_total c :
  c = boundary ∨ c ∈ mjoin words → is_Some (stoi words !! c).
Proof.
  intros Hc. destruct (decide (c = boundary)) as [->|Hne].
  - rewrite stoi_boundary. eauto.
  - destruct Hc as [?|Hc]; [done|].
    apply elem_of_characters, list_elem_of_lookup in Hc as [i Hi].
    exists (i + 1)%nat. apply stoi_lookup. right. eauto.
Qed.

Lemma stoi_zero c : stoi words !! c = Some 0%nat ↔ c = boundary.
Proof.
  rewrite stoi_lookup. split.
  - intros [[-> _]|[_ (i & ? & _)]]; [done|lia].
  - intros ->. by left.
Qed.

(** [itos] is [stoi] read backwards. *)
Lemma itos_lookup n c : itos words !! n = Some c ↔ stoi words !! c = Some n.
Proof.
  unfold itos. rewrite <- elem_of_list_to_map.
  - rewrite list_elem_of_fmap. split.
    + intros ([c' n'] & [= -> ->] & Hin). by apply elem_of_map_to_list in Hin.
    + intros H. exists (c, n). split; [done|]. by apply elem_of_map_to_list.
  - rewrite <- list_fmap_compose.
    apply NoDup_fmap_2_strong; [|apply NoDup_map_to_list].
    intros [c1 n1] [c2 n2] H1%elem_of_map_to_list H2%elem_of_map_to_list.
    simpl. intros ->. f_equal. eapply stoi_inj; eauto.
Qed.

Lemma itos_boundary n : itos words !! n = Some boundary ↔ n = 0%nat.
Proof.
  rewrite itos_lookup. split.
  - intros H. pose proof stoi_boundary. congruence.
  - intros ->. apply stoi_boundary.
Qed.
End Vocabulary.

Lemma vocab_size_alphabet words :
  vocab_size words = (size (list_to_set (C := gset N) (mjoin words)) + 1)%nat.
Proof.
  unfold vocab_size, characters, size, set_size. simpl.
  by rewrite merge_sort_Permutation.
Qed.

(** A corpus that uses ['^'] itself breaks the contract: the character
    takes index 0 and its own index is left without a symbol. *)
Lemma vocabulary_ok_reserved words :
  vocabulary_ok words → boundary ∉ mjoin words.
Proof.
  intros (_ & _ & _ & _ & _ & Hb & Hne) Hin.
  destruct (Hne _ Hin) as (n & Hn & Hn0). congruence.
Qed.

(** C5 (as stated) fails on the corpus with the single name "^":
    [vocab_size] is 2 but index 1 has no symbol, and the corpus character
    '^' has the boundary index. *)
Lemma vocabulary_caret_collision : ¬ vocabulary_ok [[94%N]].
Proof.
  intros H. apply vocabulary_ok_reserved in H. apply H.
  apply list_elem_of_In. simpl. by left.
Qed.

(** C5 (amended): for every corpus in which the character '^' does not
    occur, [stoi] is a bijection from the symbols onto the indices
    [0 .. vocab_size - 1] with [vocab_size = |alphabet| + 1], [itos] is
    its inverse, '^' maps to 0 and every corpus character maps to a
    nonzero index. *)
Theorem vocabulary_bijection words :
  boundary ∉ mjoin words → vocabulary_ok words.
Proof.
  intros Hfresh. repeat split.
  - apply vocab_size_alphabet.
  - apply stoi_lt.
  - apply stoi_inj.
  - intros n Hn. destruct n as [|i].
    + exists boundary. apply stoi_boundary.
    + unfold vocab_size in Hn.
      destruct (lookup_lt_is_Some_2 (characters words) i) as [c Hc]; [lia|].
      exists c. apply stoi_lookup. right. split.
      * intros ->. apply Hfresh, elem_of_characters.
        apply list_elem_of_lookup. eauto.
      * exists i. split; [lia|done].
  - apply itos_lookup.
  - apply itos_lookup.
  - apply stoi_boundary.
  - intros c Hc. destruct (stoi_total words c) as [n Hn]; [by right|].
    exists n. split; [done|]. intros ->.
    apply stoi_zero in Hn as ->. done.
Qed.

Lemma vocabulary_bijection_witness : vocabulary_ok [[97%N; 98%N]].
Proof.
  apply (vocabulary_bijection [[97%N; 98%N]]).
  intros H. apply list_elem_of_In in H. simpl in H.
  destruct H as [H|[H|[]]]; discriminate H.
Defined.

(** ** The count matrix *)

Lemma wrap32_small z : - 2 ^ 31 ≤ z ≤ int32_max → wrap32 z = z.
Proof.
  unfold wrap32, int32_max. intros Hz.
  rewrite Z.mod_small; lia.
Qed.

Lemma wrap32_succ z k : wrap32 (wrap32 z + k) = wrap32 (z + k).
Proof.
  unfold wrap32.
  replace ((z + 2 ^ 31) mod 2 ^ 32 - 2 ^ 31 + k + 2 ^ 31)
    with ((z + 2 ^ 31) mod 2 ^ 32 + k) by lia.
  replace (z + k + 2 ^ 31) with ((z + 2 ^ 31) + k) by lia.
  by rewrite Zplus_mod_idemp_l.
Qed.

#[global] Arguments row_sum : simpl never.
#[global] Arguments table_sum : simpl never.

Lemma row_sum_cons x (l : list Z) : row_sum (x :: l) = x + row_sum l.
Proof. reflexivity. Qed.

Lemma row_sum_nonneg (l : list Z) : Forall (λ c : Z, 0 ≤ c) l → 0 ≤ row_sum l.
Proof. induction 1; rewrite ?row_sum_cons; [done|lia]. Qed.

Lemma Zsum_lookup_le (l : list Z) i a :
  Forall (λ c : Z, 0 ≤ c) l → l !! i = Some a → 0 ≤ a ≤ row_sum l.
Proof.
  intros Hl. revert i. induction Hl as [|x l Hx Hl IH]; intros [|i] Hi;
    simplify_eq/=; rewrite row_sum_cons.
  - pose proof (row_sum_nonneg _ Hl). lia.
  - specialize (IH _ Hi). lia.
Qed.

Lemma zeros_square n : square n (zeros n).
Proof.
  split; [apply length_replicate|].
  apply Forall_replicate, length_replicate.
Qed.

Lemma zeros_cell n i j : (i < n)%nat → (j < n)%nat → cell (zeros n) i j = Some 0.
Proof.
  intros Hi Hj. unfold cell, zeros.
  rewrite lookup_replicate_2 by done. simpl.
  by rewrite lookup_replicate_2.
Qed.

Lemma square_cell n t i j :
  square n t → (i < n)%nat → (j < n)%nat → is_Some (cell t i j).
Proof.
  intros [Hlen Hrows] Hi Hj. unfold cell.
  destruct (lookup_lt_is_Some_2 t i) as [r Hr]; [lia|].
  rewrite Hr. simpl. apply lookup_lt_is_Some_2.
  rewrite Forall_lookup in Hrows. rewrite (Hrows _ _ Hr). done.
Qed.

(** [bigram_counts[a][b] += 1] on a square matrix, in range. *)
Lemma incr_spec n t a b :
  square n t → (a < n)%nat → (b < n)%nat →
  ∃ t' c, incr t a b = Some t' ∧ cell t a b = Some c ∧ square n t' ∧
    ∀ i j, cell t' i j =
             if decide (i = a ∧ j = b) then Some (wrap32 (c + 1))
             else cell t i j.
Proof.
  intros [Hlen Hrows] Ha Hb.
  destruct (lookup_lt_is_Some_2 t a) as [r Hr]; [lia|].
  assert (length r = n) as Hrlen by (rewrite Forall_lookup in Hrows; eauto).
  destruct (lookup_lt_is_Some_2 r b) as [c Hc]; [lia|].
  exists (<[a := <[b := wrap32 (c + 1)]> r]> t), c.
  unfold incr, cell. rewrite Hr. simpl. rewrite Hc. simpl.
  split_and!; [done|done|..].
  - split; [by rewrite length_insert|].
    apply Forall_insert; [done|]. by rewrite length_insert.
  - intros i j. destruct (decide (i = a)) as [->|Hia].
    + rewrite list_lookup_insert_eq by lia. simpl.
      destruct (decide (j = b)) as [->|Hjb].
      * rewrite list_lookup_insert_eq by lia.
        rewrite decide_True by done. done.
      * rewrite list_lookup_insert_ne by done.
        rewrite decide_False by (intros [_ ?]; done). by rewrite Hr.
    + rewrite list_lookup_insert_ne by done.
      rewrite decide_False by (intros [? _]; done). done.
Qed.

(** *** The counting loops *)

Lemma for_each_app {A S : Type} (body : S → A → option S) s l1 l2 :
  for_each body s (l1 ++ l2) = for_each body s l1 ≫= λ s', for_each body s' l2.
Proof.
  revert s. induction l1 as [|x l1 IH]; intros s; simpl; [done|].
  destruct (body s x) as [s1|]; simpl; [apply IH|done].
Qed.

Lemma for_each_cons {A S : Type} (body : S → A → option S) s x l :
  for_each body s (x :: l) = body s x ≫= λ s', for_each body s' l.
Proof. reflexivity. Qed.

(** The nested loops visit the bigrams of the corpus one after the other. *)
Lemma all_bigrams_cons nm (words : list (list N)) :
  all_bigrams (nm :: words) = bigrams nm ++ all_bigrams words.
Proof. reflexivity. Qed.

Lemma count_words_flat st t (words : list (list N)) :
  for_each (count_name st) t words
  = for_each (count_bigram st) t (all_bigrams words).
Proof.
  revert t. induction words as [|nm words IH]; intros t; [done|].
  rewrite all_bigrams_cons, for_each_app, for_each_cons.
  change (for_each (count_bigram st) t (bigrams nm)) with (count_name st t nm).
  destruct (count_name st t nm); simpl; [apply IH|done].
Qed.

Lemma occ_nil st i j : occ st [] i j = 0.
Proof. reflexivity. Qed.

Lemma occ_cons st b bs i j :
  occ st (b :: bs) i j =
    (if decide (st !! b.1 = Some i ∧ st !! b.2 = Some j) then 1 else 0)
    + occ st bs i j.
Proof.
  unfold occ. rewrite filter_cons. case_decide; simpl; lia.
Qed.

Lemma occ_nonneg st bs i j : 0 ≤ occ st bs i j.
Proof. unfold occ. lia. Qed.

Lemma occ_le_length st bs i j : occ st bs i j ≤ Z.of_nat (length bs).
Proof. unfold occ. pose proof (length_filter
  (λ b : N * N, st !! b.1 = Some i ∧ st !! b.2 = Some j) bs). lia. Qed.

Lemma occ_pos st bs i j :
  0 < occ st bs i j ↔ ∃ b, b ∈ bs ∧ st !! b.1 = Some i ∧ st !! b.2 = Some j.
Proof.
  unfold occ. split.
  - intros H.
    destruct (filter (λ b : N * N, st !! b.1 = Some i ∧ st !! b.2 = Some j) bs)
      as [|b l] eqn:Hf; [simpl in H; lia|].
    assert (b ∈ filter (λ b : N * N, st !! b.1 = Some i ∧ st !! b.2 = Some j) bs)
      as Hb by (rewrite Hf; left).
    apply list_elem_of_filter in Hb as [Hb1 Hb2]. eauto.
  - intros (b & Hb & H1 & H2).
    assert (b ∈ filter (λ b : N * N, st !! b.1 = Some i ∧ st !! b.2 = Some j) bs)
      as Hin by (apply list_elem_of_filter; done).
    destruct (filter _ bs); [by apply not_elem_of_nil in Hin|]. simpl. lia.
Qed.

Lemma count_bigram_indexed st t (b : N * N) i j :
  st !! b.1 = Some i → st !! b.2 = Some j → count_bigram st t b = incr t i j.
Proof. unfold count_bigram. intros -> ->. reflexivity. Qed.

(** What the inner loop does to a square matrix: it never raises and
    every cell grows by the number of its bigrams, modulo 2^32. *)
Lemma count_bigrams_spec st n bs : ∀ t,
  square n t → indexed st n bs →
  ∃ t', for_each (count_bigram st) t bs = Some t' ∧ square n t' ∧
    ∀ i j c, cell t i j = Some (wrap32 c) →
             cell t' i j = Some (wrap32 (c + occ st bs i j)).
Proof.
  induction bs as [|b bs IH]; intros t Hsq Hix.
  - exists t. split_and!; [done|done|].
    intros i j c Hc. rewrite occ_nil, Z.add_0_r. done.
  - apply Forall_cons in Hix as [(a & a' & Ha & Ha' & Hlt & Hlt') Hix].
    destruct (incr_spec n t a a' Hsq Hlt Hlt')
      as (t1 & c0 & Hincr & Hc0 & Hsq1 & Hcell1).
    destruct (IH t1 Hsq1 Hix) as (t' & Hloop & Hsq' & Hcell').
    exists t'. split_and!.
    + rewrite for_each_cons, (count_bigram_indexed _ _ _ _ _ Ha Ha'), Hincr.
      done.
    + done.
    + intros i j c Hc. rewrite occ_cons. specialize (Hcell1 i j).
      destruct (decide (i = a ∧ j = a')) as [[-> ->]|Hne].
      * rewrite decide_True by done.
        rewrite Hc0 in Hc. injection Hc as ->.
        rewrite wrap32_succ in Hcell1.
        apply Hcell' in Hcell1. rewrite Hcell1. do 2 f_equal. lia.
      * rewrite decide_False by (intros [? ?]; apply Hne; split; congruence).
        rewrite Hc in Hcell1. apply Hcell' in Hcell1. rewrite Hcell1.
        do 2 f_equal.
Qed.

Lemma length_bigrams (nm : list N) : length (bigrams nm) = S (length nm).
Proof.
  unfold bigrams, padded_name. rewrite length_zip.
  change (tail ([boundary] ++ nm ++ [boundary])) with (nm ++ [boundary]).
  rewrite !length_app. change (length [boundary]) with 1%nat. lia.
Qed.

Lemma total_bigrams_cons nm (words : list (list N)) :
  total_bigrams (nm :: words) = Z.of_nat (length nm) + 1 + total_bigrams words.
Proof. reflexivity. Qed.

Lemma length_all_bigrams (words : list (list N)) :
  Z.of_nat (length (all_bigrams words)) = total_bigrams words.
Proof.
  induction words as [|nm words IH]; [done|].
  rewrite all_bigrams_cons, total_bigrams_cons, length_app, length_bigrams.
  lia.
Qed.

Lemma elem_of_bigrams (nm : list N) b :
  b ∈ bigrams nm →
  (b.1 = boundary ∨ b.1 ∈ nm) ∧ (b.2 = boundary ∨ b.2 ∈ nm).
Proof.
  unfold bigrams, padded_name. intros Hb. split.
  - destruct b as [x y]. apply elem_of_zip_l in Hb. simpl in *.
    apply elem_of_cons in Hb as [->|Hb]; [by left|].
    apply elem_of_app in Hb as [?|Hb]; [by right|].
    apply list_elem_of_singleton in Hb. by left.
  - destruct b as [x y]. apply elem_of_zip_r in Hb. simpl in *.
    apply elem_of_app in Hb as [?|Hb]; [by right|].
    apply list_elem_of_singleton in Hb. by left.
Qed.

Lemma all_bigrams_indexed (words : list (list N)) :
  indexed (stoi words) (vocab_size words) (all_bigrams words).
Proof.
  unfold indexed, all_bigrams. apply Forall_forall. intros b Hb.
  apply list_elem_of_join in Hb as (bs & Hb & Hbs).
  apply list_elem_of_fmap in Hbs as (nm & -> & Hnm).
  apply elem_of_bigrams in Hb as [H1 H2].
  assert (∀ c, c = boundary ∨ c ∈ nm →
               ∃ i, stoi words !! c = Some i ∧ (i < vocab_size words)%nat)
    as Hidx.
  { intros c Hc. destruct (stoi_total words c) as [i Hi].
    - destruct Hc as [?|Hc]; [by left|right].
      apply list_elem_of_join. eauto.
    - exists i. split; [done|]. by eapply stoi_lt. }
  destruct (Hidx _ H1) as (i & Hi & ?), (Hidx _ H2) as (j & Hj & ?).
  exists i, j. done.
Qed.

(** The counting step never raises and produces a matrix of shape
    (vocab_size, vocab_size) whose cells are the bigram counts modulo
    2^32. *)
Lemma bigram_counts_spec (words : list (list N)) :
  ∃ t, bigram_counts words = Some t ∧ square (vocab_size words) t ∧
    ∀ i j, (i < vocab_size words)%nat → (j < vocab_size words)%nat →
      cell t i j = Some (wrap32 (occ (stoi words) (all_bigrams words) i j)).
Proof.
  unfold bigram_counts. rewrite count_words_flat.
  destruct (count_bigrams_spec (stoi words) (vocab_size words)
              (all_bigrams words) (zeros (vocab_size words)))
    as (t & Ht & Hsq & Hcell);
    [apply zeros_square|apply all_bigrams_indexed|].
  exists t. split_and!; [done|done|].
  intros i j Hi Hj. apply (Hcell i j 0). by rewrite zeros_cell.
Qed.

(** While no bigram occurs 2^31 times or more, nothing wraps and the
    cells hold the counts themselves. *)
Lemma fits_no_wrap (words : list (list N)) :
  total_bigrams words ≤ int32_max → no_wrap words.
Proof.
  intros Hle i j. pose proof (occ_le_length (stoi words) (all_bigrams words) i j).
  rewrite length_all_bigrams in *. lia.
Qed.

Lemma no_wrap_cells (words : list (list N)) t :
  no_wrap words → bigram_counts words = Some t →
  square (vocab_size words) t ∧
  ∀ i j, (i < vocab_size words)%nat → (j < vocab_size words)%nat →
    cell t i j = Some (occ (stoi words) (all_bigrams words) i j).
Proof.
  intros Hfit Ht.
  destruct (bigram_counts_spec words) as (t' & Ht' & Hsq & Hcell).
  rewrite Ht in Ht'. injection Ht' as <-. split; [done|].
  intros i j Hi Hj. rewrite (Hcell i j Hi Hj). f_equal.
  apply wrap32_small. pose proof (occ_nonneg (stoi words) (all_bigrams words) i j).
  specialize (Hfit i j). lia.
Qed.

(** *** Sums over the matrix *)

Lemma row_sum_app (l k : list Z) : row_sum (l ++ k) = row_sum l + row_sum k.
Proof.
  induction l as [|x l IH]; [done|].
  rewrite <- app_comm_cons, !row_sum_cons, IH. lia.
Qed.

Lemma sum_upto_S n g : sum_upto (S n) g = sum_upto n g + g n.
Proof.
  unfold sum_upto. rewrite seq_S, fmap_app, row_sum_app. simpl.
  rewrite row_sum_cons. change (row_sum []) with 0. lia.
Qed.

Lemma sum_upto_ext n g h :
  (∀ i, (i < n)%nat → g i = h i) → sum_upto n g = sum_upto n h.
Proof.
  induction n as [|n IH]; intros Hgh; [done|].
  rewrite !sum_upto_S, IH by (intros; apply Hgh; lia).
  rewrite (Hgh n) by lia. done.
Qed.

Lemma sum_upto_add n g h :
  sum_upto n (λ i, g i + h i) = sum_upto n g + sum_upto n h.
Proof.
  induction n as [|n IH]; [done|]. rewrite !sum_upto_S, IH. lia.
Qed.

Lemma sum_upto_zero n : sum_upto n (λ _, 0) = 0.
Proof. induction n as [|n IH]; [done|]. rewrite sum_upto_S, IH. done. Qed.

Lemma sum_upto_indicator n a x :
  (a < n)%nat → sum_upto n (λ i, if decide (i = a) then x else 0) = x.
Proof.
  induction n as [|n IH]; intros Ha; [lia|]. rewrite sum_upto_S.
  destruct (decide (n = a)) as [->|Hne].
  - rewrite (sum_upto_ext _ _ (λ _, 0)), sum_upto_zero; [lia|].
    intros i Hi. rewrite decide_False by lia. done.
  - rewrite IH by lia. lia.
Qed.

Lemma sum_upto_le n g h :
  (∀ i, (i < n)%nat → g i ≤ h i) → sum_upto n g ≤ sum_upto n h.
Proof.
  induction n as [|n IH]; intros Hgh; [done|]. rewrite !sum_upto_S.
  specialize (Hgh n ltac:(lia)) as Hn.
  assert (sum_upto n g ≤ sum_upto n h) by (apply IH; intros; apply Hgh; lia).
  lia.
Qed.

(** Termwise smaller and equal in sum: equal term by term. *)
Lemma sum_upto_le_eq n g h :
  (∀ i, (i < n)%nat → g i ≤ h i) → sum_upto n g = sum_upto n h →
  ∀ i, (i < n)%nat → g i = h i.
Proof.
  induction n as [|n IH]; intros Hgh Heq i Hi; [lia|].
  rewrite !sum_upto_S in Heq.
  specialize (Hgh n ltac:(lia)) as Hn.
  assert (sum_upto n g ≤ sum_upto n h)
    by (apply sum_upto_le; intros; apply Hgh; lia).
  destruct (decide (i = n)) as [->|Hne]; [lia|].
  apply IH; [intros; apply Hgh; lia|lia|lia].
Qed.

(** The sum of a square matrix, from its cells. *)
Lemma table_sum_cells n t f :
  square n t →
  (∀ i j, (i < n)%nat → (j < n)%nat → cell t i j = Some (f i j)) →
  table_sum t = sum_upto n (λ i, sum_upto n (f i)).
Proof.
  intros [Hlen Hrows] Hcell.
  assert (t = (λ i, f i <$> seq 0 n) <$> seq 0 n) as ->.
  { apply list_eq. intros i. rewrite list_lookup_fmap.
    destruct (decide (i < n)%nat) as [Hi|Hi].
    - rewrite lookup_seq_lt by done. simpl.
      destruct (lookup_lt_is_Some_2 t i) as [r Hr]; [lia|]. rewrite Hr.
      f_equal. apply list_eq. intros j. rewrite list_lookup_fmap.
      rewrite Forall_lookup in Hrows. specialize (Hrows _ _ Hr).
      destruct (decide (j < n)%nat) as [Hj|Hj].
      + rewrite lookup_seq_lt by done. simpl.
        specialize (Hcell i j Hi Hj). unfold cell in Hcell.
        by rewrite Hr in Hcell.
      + rewrite lookup_seq_ge by lia. apply lookup_ge_None. lia.
    - rewrite lookup_seq_ge by lia. apply lookup_ge_None. lia. }
  unfold table_sum, sum_upto. by rewrite <- list_fmap_compose.
Qed.

(** Every bigram is counted in exactly one cell. *)
Lemma occ_total st n bs :
  indexed st n bs →
  sum_upto n (λ i, sum_upto n (occ st bs i)) = Z.of_nat (length bs).
Proof.
  induction 1 as [|b bs (a & a' & Ha & Ha' & Hlt & Hlt') _ IH].
  - rewrite (sum_upto_ext _ _ (λ _, 0)), sum_upto_zero; [done|].
    intros i _. apply sum_upto_zero.
  - rewrite (sum_upto_ext _ _
      (λ i, (if decide (i = a) then 1 else 0) + sum_upto n (occ st bs i))).
    + rewrite sum_upto_add, IH, sum_upto_indicator by done.
      simpl length. lia.
    + intros i Hi.
      rewrite (sum_upto_ext _ _
        (λ j, (if decide (i = a) then if decide (j = a') then 1 else 0 else 0)
              + occ st bs i j)).
      * rewrite sum_upto_add. f_equal. case_decide.
        -- by apply sum_upto_indicator.
        -- apply sum_upto_zero.
      * intros j Hj. rewrite occ_cons, Ha, Ha'. f_equal.
        destruct (decide (i = a)) as [->|Hia], (decide (j = a')) as [->|Hja].
        -- by rewrite decide_True.
        -- rewrite decide_False; [done|]. intros [_ [= ?]]. done.
        -- rewrite decide_False; [done|]. intros [[= ?] _]. done.
        -- rewrite decide_False; [done|]. intros [[= ?] _]. done.
Qed.

(** *** Two hand-checked corpora *)

(** C6: for the corpus with the single name "ab" the alphabet is {a, b},
    the indices are '^' = 0, a = 1, b = 2, and the count matrix holds a
    1 in the cells '^'->a, a->b and b->'^' and 0 everywhere else. *)
Theorem counts_single_ab :
  characters [[97%N; 98%N]] = [97%N; 98%N] ∧
  stoi [[97%N; 98%N]] !! boundary = Some 0%nat ∧
  stoi [[97%N; 98%N]] !! 97%N = Some 1%nat ∧
  stoi [[97%N; 98%N]] !! 98%N = Some 2%nat ∧
  bigram_counts [[97%N; 98%N]]
    = Some [[0; 1; 0];
            [0; 0; 1];
            [1; 0; 0]].
Proof. split_and!; vm_compute; reflexivity. Qed.

(** C7: for the corpus with the single name "" the counting loop does
    not raise; the matrix is 1 x 1 (only '^' is a symbol) and its one
    cell, '^'->'^', holds 1. *)
Theorem counts_single_empty_name :
  vocab_size [[]] = 1%nat ∧
  stoi [[]] !! boundary = Some 0%nat ∧
  bigram_counts [[]] = Some [[1]].
Proof. split_and!; vm_compute; reflexivity. Qed.

(** *** The sum of the matrix *)

(** C10 (amended): for every corpus in which no bigram occurs more
    than 2^31 - 1 times -- so that no int32 cell wraps around -- the
    counting loops do not raise and the cells of the count matrix add up
    to the number of bigrams, the sum of len(name) + 1 over the names. *)
Theorem counts_sum_total words : no_wrap words → counts_sum_ok words.
Proof.
  intros Hfit.
  destruct (bigram_counts_spec words) as (t & Ht & _).
  exists t. split; [done|].
  destruct (no_wrap_cells words t Hfit Ht) as [Hsq Hcell].
  rewrite (table_sum_cells _ _ _ Hsq Hcell).
  rewrite (occ_total _ _ _ (all_bigrams_indexed words)).
  apply length_all_bigrams.
Qed.

Lemma counts_sum_total_witness : counts_sum_ok [[97%N; 98%N]; []].
Proof.
  apply (counts_sum_total [[97%N; 98%N]; []]).
  apply fits_no_wrap. vm_compute. discriminate.
Defined.

(** The bound is exact: when some bigram occurs 2^31 times or more the
    sum of the cells falls short of the number of bigrams. *)
Lemma counts_sum_exact words : counts_sum_ok words → no_wrap words.
Proof.
  intros (t & Ht & Hsum) i j.
  destruct (bigram_counts_spec words) as (t' & Ht' & Hsq & Hcell).
  rewrite Ht in Ht'. injection Ht' as <-.
  set (st := stoi words) in *. set (bs := all_bigrams words) in *.
  set (n := vocab_size words) in *.
  destruct (decide (i < n ∧ j < n)%nat) as [[Hi Hj]|Hout].
  - rewrite (table_sum_cells n t (λ i j, wrap32 (occ st bs i j)) Hsq Hcell)
      in Hsum.
    rewrite <- length_all_bigrams in Hsum. fold bs in Hsum.
    rewrite <- (occ_total st n bs (all_bigrams_indexed words)) in Hsum.
    assert (∀ z, 0 ≤ z → wrap32 z ≤ z) as Hw.
    { intros z Hz. unfold wrap32.
      pose proof (Z.mod_le (z + 2 ^ 31) (2 ^ 32)). lia. }
    assert (wrap32 (occ st bs i j) = occ st bs i j) as Heq.
    { apply (sum_upto_le_eq n (λ j, wrap32 (occ st bs i j)) (occ st bs i));
        [intros; apply Hw, occ_nonneg| |done].
      apply (sum_upto_le_eq n
               (λ i, sum_upto n (λ j, wrap32 (occ st bs i j)))
               (λ i, sum_upto n (occ st bs i))); [|done|done].
      intros i' _. apply sum_upto_le. intros j' _. apply Hw, occ_nonneg. }
    unfold wrap32 in Heq. unfold int32_max.
    pose proof (Z.mod_pos_bound (occ st bs i j + 2 ^ 31) (2 ^ 32)). lia.
  - assert (¬ 0 < occ st bs i j); [|unfold int32_max; lia].
    intros (b & Hb & H1 & H2)%occ_pos. apply Hout.
    pose proof (all_bigrams_indexed words) as Hix. unfold indexed in Hix.
    rewrite Forall_forall in Hix.
    destruct (Hix b Hb) as (i' & j' & Hi' & Hj' & ? & ?).
    fold st in Hi', Hj'. rewrite H1 in Hi'. rewrite H2 in Hj'.
    injection Hi' as <-. injection Hj' as <-. done.
Qed.

(** A corpus of [n] empty names: one symbol, one cell, [n] increments of
    that cell. *)
Lemma vocab_size_empty_names n : vocab_size (replicate n []) = 1%nat.
Proof.
  unfold vocab_size, characters.
  rewrite (join_nil_2 (replicate n [])) by (by apply Forall_replicate).
  reflexivity.
Qed.

Lemma total_bigrams_empty_names n :
  total_bigrams (replicate n []) = Z.of_nat n.
Proof.
  induction n as [|n IH]; [done|].
  change (replicate (S n) []) with (@nil N :: replicate n []).
  rewrite total_bigrams_cons, IH. simpl length. lia.
Qed.

Lemma occ_empty_names n :
  occ (stoi (replicate n [])) (all_bigrams (replicate n [])) 0 0 = Z.of_nat n.
Proof.
  generalize (stoi_boundary (replicate n [])).
  generalize (stoi (replicate n [])). intros st Hst.
  induction n as [|n IH]; [done|].
  change (replicate (S n) []) with (@nil N :: replicate n []).
  rewrite all_bigrams_cons.
  change (bigrams []) with [(boundary, boundary)].
  change ([(boundary, boundary)] ++ all_bigrams (replicate n []))
    with ((boundary, boundary) :: all_bigrams (replicate n [])).
  rewrite occ_cons, IH, decide_True by done. lia.
Qed.

Lemma table_sum_empty_names n :
  ∃ t, bigram_counts (replicate n []) = Some t ∧
       table_sum t = wrap32 (Z.of_nat n).
Proof.
  destruct (bigram_counts_spec (replicate n []))
    as (t & Ht & [Hlen Hrows] & Hcell).
  exists t. split; [done|].
  rewrite vocab_size_empty_names in *.
  specialize (Hcell 0%nat 0%nat (Nat.lt_0_1) (Nat.lt_0_1)).
  rewrite occ_empty_names in Hcell.
  destruct t as [|r [|? ?]]; try done.
  apply Forall_cons in Hrows as [Hr _].
  destruct r as [|c [|? ?]]; try done.
  unfold cell in Hcell. simpl in Hcell. injection Hcell as ->.
  unfold table_sum. simpl. rewrite !row_sum_cons.
  change (row_sum []) with 0. lia.
Qed.

(** C10 (as stated) fails on the corpus of 2^31 empty names: the single
    cell '^'->'^' is incremented 2^31 times and, being an int32, ends at
    -2^31, while the names ask for 2^31 bigrams. *)
Lemma counts_sum_wraps :
  ¬ counts_sum_ok (replicate (Z.to_nat (2 ^ 31)) []).
Proof.
  assert (Z.of_nat (Z.to_nat (2 ^ 31)) = 2 ^ 31) as Hn
    by (apply Z2Nat.id; lia).
  revert Hn. generalize (Z.to_nat (2 ^ 31)). intros n Hn [t [Ht Hsum]].
  destruct (table_sum_empty_names n) as (t' & Ht' & Hsum').
  rewrite Ht in Ht'. injection Ht' as <-.
  rewrite total_bigrams_empty_names in Hsum.
  rewrite Hsum, Hn in Hsum'. clear -Hsum'.
  vm_compute in Hsum'. discriminate Hsum'.
Qed.

(** ** The probability table *)

(** The build never raises, whatever the corpus, and its table is
    [normalized_bigram_counts]. *)
Lemma build_total (words : list (list N)) : is_Some (build words).
Proof.
  destruct (bigram_counts_spec words) as (t & Ht & _).
  unfold build. rewrite Ht. eauto.
Qed.

Lemma build_probs (words : list (list N)) :
  m_probs <$> build words = normalized_bigram_counts words.
Proof.
  unfold build, normalized_bigram_counts.
  destruct (bigram_counts words); reflexivity.
Qed.

Lemma Qsum_inject_Z (r : list Z) :
  (Qsum (inject_Z <$> r) == inject_Z (row_sum r))%Q.
Proof.
  induction r as [|c r IH]; [reflexivity|].
  rewrite fmap_cons, row_sum_cons, inject_Z_plus.
  change (Qsum (inject_Z c :: (inject_Z <$> r)))
    with (inject_Z c + Qsum (inject_Z <$> r))%Q.
  by rewrite IH.
Qed.

Lemma normalize_lookup (t : list (list Z)) i r :
  t !! i = Some r →
  normalize t !! i = Some (normalize_row (inject_Z <$> r)).
Proof.
  intros Hr. unfold normalize, float_.
  rewrite !list_lookup_fmap, Hr. reflexivity.
Qed.

(** A row of zeros divided by its sum, 0.0 / 0.0, is a row of NaN. *)
Lemma normalize_row_zero_sum (r : list Z) :
  row_sum r = 0 → Forall (λ c : Z, 0 ≤ c) r →
  Forall (λ x, x = NaN) (normalize_row (inject_Z <$> r)).
Proof.
  intros Hsum Hnn. unfold normalize_row.
  assert (Qeq_bool (Qsum (inject_Z <$> r)) 0 = true) as Hz.
  { apply Qeq_bool_iff. rewrite Qsum_inject_Z, Hsum. reflexivity. }
  apply Forall_fmap, Forall_fmap, Forall_lookup.
  intros k c Hc. simpl. unfold fdiv. rewrite Hz.
  pose proof (Zsum_lookup_le _ _ _ Hnn Hc) as Hc0.
  assert (c = 0) as -> by lia. reflexivity.
Qed.

Lemma multinomial_weights_special (row : list fp) :
  row ≠ [] → Forall special row → multinomial_weights row = None.
Proof.
  intros Hne Hrow. unfold multinomial_weights.
  destruct Hrow as [|x row Hx _]; [done|].
  change (mapM weight (x :: row))
    with (y ← weight x; k ← mapM weight row; mret (y :: k)).
  destruct Hx as [->|[b ->]]; reflexivity.
Qed.

Lemma multinomial_weights_nan (row : list fp) :
  row ≠ [] → Forall (λ x, x = NaN) row → multinomial_weights row = None.
Proof.
  intros Hne Hrow. apply multinomial_weights_special; [done|].
  eapply Forall_impl; [exact Hrow|]. intros x ->. by left.
Qed.

(** The row of an index that never occurs as a predecessor is never
    incremented. *)
Lemma never_predecessor_row (words : list (list N)) t i :
  never_predecessor words i → bigram_counts words = Some t →
  ∃ r, t !! i = Some r ∧ r ≠ [] ∧ Forall (λ c : Z, c = 0) r.
Proof.
  intros [Hi Hfree] Ht.
  destruct (bigram_counts_spec words) as (t' & Ht' & [Hlen Hrows] & Hcell).
  rewrite Ht in Ht'. injection Ht' as <-.
  destruct (lookup_lt_is_Some_2 t i) as [r Hr]; [lia|].
  rewrite Forall_lookup in Hrows. pose proof (Hrows _ _ Hr) as Hrlen.
  exists r. split_and!; [done| |].
  - destruct r; [simpl in Hrlen; lia|done].
  - apply Forall_lookup. intros j c Hc.
    assert (j < vocab_size words)%nat as Hj
      by (rewrite <- Hrlen; by apply lookup_lt_Some in Hc).
    specialize (Hcell i j Hi Hj). unfold cell in Hcell.
    rewrite Hr in Hcell. simpl in Hcell. rewrite Hc in Hcell.
    injection Hcell as ->.
    pose proof (occ_nonneg (stoi words) (all_bigrams words) i j).
    destruct (decide (0 < occ (stoi words) (all_bigrams words) i j))
      as [Hpos|Hnpos].
    + apply occ_pos in Hpos as (b & Hb & H1 & _). by apply Hfree in Hb.
    + assert (occ (stoi words) (all_bigrams words) i j = 0) as -> by lia.
      reflexivity.
Qed.

Lemma row_sum_zeros (r : list Z) : Forall (λ c : Z, c = 0) r → row_sum r = 0.
Proof.
  induction 1 as [|c r -> _ IH]; [done|]. rewrite row_sum_cons, IH. done.
Qed.

(** C3 (as stated) fails on the empty corpus: index 0, the index of
    '^', never occurs as a predecessor, the build does not raise, and
    the row of the probability table is [NaN], not a distribution. *)
Lemma zero_row_is_silent : ¬ zero_row_policy [].
Proof.
  intros H. destruct (H 0%nat) as [Hb|(m & row & Hb & Hrow & Hu)].
  - split; [vm_compute; lia|]. intros b Hb. by apply not_elem_of_nil in Hb.
  - discriminate Hb.
  - vm_compute in Hb. injection Hb as <-. simpl in Hrow.
    injection Hrow as <-. apply Forall_cons in Hu as [(q & Hq & _) _].
    discriminate Hq.
Qed.

(** C3 (amended): when a symbol's index never occurs as a predecessor
    in the corpus, the build of the probability table neither raises
    nor substitutes a uniform row: the build completes, the row of that
    index in the count matrix is all 0 (so its sum is exactly 0) and
    every entry of its row in the probability table is NaN.  The
    failure is deferred to sampling: [torch.multinomial] rejects these
    weights. *)
Theorem zero_row_deferred words i :
  never_predecessor words i →
  ∃ m r row, build words = Some m ∧
    m_counts m !! i = Some r ∧ Forall (λ c : Z, c = 0) r ∧ row_sum r = 0 ∧
    m_probs m !! i = Some row ∧
    row ≠ [] ∧ Forall (λ x, x = NaN) row ∧ ¬ uniform row ∧
    multinomial_weights row = None.
Proof.
  intros Hnever.
  destruct (bigram_counts_spec words) as (t & Ht & _).
  destruct (never_predecessor_row words t i Hnever Ht) as (r & Hr & Hne & Hz).
  pose proof (row_sum_zeros r Hz) as Hsum.
  assert (Forall (λ c : Z, 0 ≤ c) r) as Hnn
    by (eapply Forall_impl; [exact Hz|]; intros c ->; done).
  pose proof (normalize_row_zero_sum r Hsum Hnn) as Hnan.
  assert (normalize_row (inject_Z <$> r) ≠ []) as Hne'
    by (destruct r; done).
  exists (Model (vocab_size words) (stoi words) (itos words) t (normalize t)),
    r, (normalize_row (inject_Z <$> r)).
  split_and!; try done.
  - unfold build. rewrite Ht. reflexivity.
  - by apply normalize_lookup.
  - intros Hu. destruct (normalize_row (inject_Z <$> r)) as [|x row]; [done|].
    apply Forall_cons in Hnan as [-> _].
    apply Forall_cons in Hu as [(q & Hq & _) _]. discriminate Hq.
  - by apply multinomial_weights_nan.
Qed.

Lemma zero_row_deferred_witness :
  ∃ m r row, build [] = Some m ∧
    m_counts m !! 0%nat = Some r ∧ Forall (λ c : Z, c = 0) r ∧ row_sum r = 0 ∧
    m_probs m !! 0%nat = Some row ∧
    row ≠ [] ∧ Forall (λ x, x = NaN) row ∧ ¬ uniform row ∧
    multinomial_weights row = None.
Proof.
  apply (zero_row_deferred [] 0%nat).
  split; [vm_compute; lia|]. intros b Hb. by apply not_elem_of_nil in Hb.
Defined.

(** ** The empty corpus *)

(** C4 (as stated) fails: on the corpus without names the build raises
    nothing. *)
Lemma empty_corpus_builds : build [] ≠ None.
Proof. vm_compute. discriminate. Qed.

(** C4 (amended): on the corpus without names no error is raised while
    the vocabulary and the tables are built: '^' is the only symbol
    (vocab_size is 1, stoi is {'^': 0}, itos is {0: '^'}), the count
    matrix is [[0]] and the probability table is [[NaN]].  The run fails
    only in the sampling loop: [torch.multinomial] rejects the first
    row, so no token is ever produced. *)
Theorem empty_corpus_model :
  build [] = Some (Model 1 {[boundary := 0%nat]} {[0%nat := boundary]}
                         [[0]] [[NaN]]) ∧
  multinomial_weights [NaN] = None ∧
  ∀ n, token_prob [[NaN]] {[0%nat := boundary]} n 0 = 0%Q.
Proof.
  split_and!; [vm_compute; reflexivity|reflexivity|].
  intros [|n]; reflexivity.
Qed.

(** ** The sampling loop, run by run *)

Section SamplerFacts.
Context {gen : Type}.
Variable multinomial : list fp → gen → option (nat * gen).
Variable probs : list (list fp).
Variable its : gmap nat N.

Local Abbreviation step := (sampler_step multinomial probs its).
Local Abbreviation run := (generates multinomial probs its).

(** What one iteration does, read off the draw. *)
Lemma sampler_step_inr w w' :
  step w = Some (inr w') →
  its !! sampled_index w' = Some boundary ∧
  printed w' = printed w ++ [newline].
Proof.
  unfold sampler_step. intros H.
  destruct (probs !! sampled_index w) as [row|]; [|done]. simpl in H.
  destruct (multinomial row (rng w)) as [d|]; [|done]. simpl in H.
  destruct (its !! d.1) as [s|] eqn:Hs; [|done]. simpl in H.
  case_decide; simplify_eq/=. done.
Qed.

Lemma sampler_step_inl w w1 :
  step w = Some (inl w1) →
  ∃ s, its !! sampled_index w1 = Some s ∧ s ≠ boundary ∧
       printed w1 = printed w ++ [s].
Proof.
  unfold sampler_step. intros H.
  destruct (probs !! sampled_index w) as [row|]; [|done]. simpl in H.
  destruct (multinomial row (rng w)) as [d|]; [|done]. simpl in H.
  destruct (its !! d.1) as [s|] eqn:Hs; [|done]. simpl in H.
  case_decide; simplify_eq/=. eauto.
Qed.

(** The bounded loop and the relation describe the same runs. *)
Lemma generate_generates fuel : ∀ w ds w',
  generate multinomial probs its fuel w = Some (ds, w') → run w ds w'.
Proof.
  induction fuel as [|fuel IH]; intros w ds w' H; [done|].
  simpl in H. destruct (step w) as [[w1|w2]|] eqn:Hstep; [| |done].
  - destruct (generate multinomial probs its fuel w1) as [[ds1 w1']|] eqn:Hg;
      [|done].
    simpl in H. injection H as <- <-.
    eapply generates_again; eauto.
  - injection H as <- <-. by apply generates_break.
Qed.

Lemma generates_generate w ds w' :
  run w ds w' →
  generate multinomial probs its (length ds) w = Some (ds, w').
Proof.
  induction 1 as [w w' Hstep|w w1 ds w' Hstep Hrun IH]; simpl.
  - by rewrite Hstep.
  - rewrite Hstep, IH. done.
Qed.

(** The shape of every run: all draws but the last are indices of
    characters other than '^', the last draw is the index of '^', and
    the output is those characters followed by the line feed. *)
Lemma generates_shape w ds w' :
  run w ds w' →
  ∃ ds0 token,
    ds = ds0 ++ [sampled_index w'] ∧
    its !! sampled_index w' = Some boundary ∧
    Forall2 (λ d c, its !! d = Some c) ds0 token ∧
    (boundary ∉ token) ∧
    printed w' = printed w ++ token ++ [newline].
Proof.
  induction 1 as [w w' Hstep|w w1 ds w' Hstep Hrun IH].
  - apply sampler_step_inr in Hstep as [Hb Hp].
    exists [], []. split_and!; try done. apply not_elem_of_nil.
  - destruct IH as (ds0 & token & -> & Hb & Hall & Hnot & Hp).
    apply sampler_step_inl in Hstep as (s & Hs & Hne & Hp1).
    exists (sampled_index w1 :: ds0), (s :: token). split_and!; try done.
    + by constructor.
    + apply not_elem_of_cons; done.
    + rewrite Hp, Hp1. rewrite <- !app_assoc. done.
Qed.
End SamplerFacts.

(** A recorded run on the model of the corpus ["ab"]: the draws 1, 2, 0
    print "ab" and the line feed. *)
Lemma replay_run_ab :
  generates replay (normalize [[0; 1; 0]; [0; 0; 1]; [1; 0; 0]])
    (itos [[97%N; 98%N]])
    (Walk 0%nat [1; 2; 0]%nat [])
    [1; 2; 0]%nat
    (Walk 0%nat [] [97%N; 98%N; newline]).
Proof.
  apply (generate_generates _ _ _ 3). vm_compute. reflexivity.
Qed.

(** C8: whatever the probability table and the generator, a run of the
    sampling loop that starts at index 0 with nothing printed stops at
    its first draw of index 0, the index of '^'; every earlier draw is a
    nonzero index whose character is printed, and what is printed is
    these characters, none of them '^', followed by the line feed of the
    final [print()]. *)
Theorem output_without_boundary {gen : Type}
    (multinomial : list fp → gen → option (nat * gen))
    (probs : list (list fp)) (words : list (list N)) (g : gen) ds w' :
  generates multinomial probs (itos words) (Walk 0%nat g []) ds w' →
  (boundary ∉ printed w') ∧
  ∃ ds0 token,
    printed w' = token ++ [newline] ∧
    (boundary ∉ token) ∧
    ds = ds0 ++ [0%nat] ∧
    Forall (λ d, d ≠ 0%nat) ds0 ∧
    Forall2 (λ d c, itos words !! d = Some c) ds0 token.
Proof.
  intros Hrun.
  destruct (generates_shape _ _ _ _ _ _ Hrun)
    as (ds0 & token & -> & Hb & Hall & Hnot & Hp).
  apply itos_boundary in Hb. rewrite Hb. simpl in Hp.
  split.
  { rewrite Hp. intros [?|Hin]%elem_of_app; [done|].
    apply list_elem_of_singleton in Hin. discriminate Hin. }
  exists ds0, token. split_and!; try done.
  clear -Hall Hnot. induction Hall as [|d c ds0 token Hd Hall IH];
    [constructor|].
  apply not_elem_of_cons in Hnot as [Hc Hnot]. constructor; [|by apply IH].
  intros ->. apply Hc. symmetry.
  pose proof (proj2 (itos_boundary words 0%nat) eq_refl). congruence.
Qed.

Lemma output_without_boundary_witness :
  (boundary ∉ [97%N; 98%N; newline]) ∧
  ∃ ds0 token,
    [97%N; 98%N; newline] = token ++ [newline] ∧
    (boundary ∉ token) ∧
    [1; 2; 0]%nat = ds0 ++ [0%nat] ∧
    Forall (λ d, d ≠ 0%nat) ds0 ∧
    Forall2 (λ d c, itos [[97%N; 98%N]] !! d = Some c) ds0 token.
Proof.
  exact (output_without_boundary replay _ [[97%N; 98%N]] _ _ _ replay_run_ab).
Defined.

(** ** The walk as a Markov chain *)

#[global] Arguments Qsum : simpl never.

Section Expectation.
Local Open Scope Q_scope.

Lemma Qsum_cons (x : Q) (l : list Q) : Qsum (x :: l) = x + Qsum l.
Proof. reflexivity. Qed.

Lemma Qsum_nonneg (l : list Q) : Forall (λ w, 0 <= w) l → 0 <= Qsum l.
Proof.
  induction 1 as [|x l Hx _ IH]; [apply Qle_refl|].
  rewrite Qsum_cons. lra.
Qed.

Lemma Qsum_lookup_le (l : list Q) k w :
  Forall (λ w, 0 <= w) l → l !! k = Some w → w <= Qsum l.
Proof.
  intros Hl. revert k. induction Hl as [|x l Hx Hl IH]; intros [|k] Hk;
    simplify_eq/=; rewrite Qsum_cons.
  - pose proof (Qsum_nonneg _ Hl). lra.
  - specialize (IH _ Hk). lra.
Qed.

Variable total : Q.
Hypothesis total_pos : 0 < total.

Lemma weight_share_nonneg w : 0 <= w → 0 <= w / total.
Proof.
  intros Hw. apply Qle_shift_div_l; [done|]. lra.
Qed.

(** Monotone in the values, index by index. *)
Lemma weighted_sum_le v v' ws : ∀ j,
  (∀ k w, ws !! k = Some w →
          w / total * v (j + k)%nat <= w / total * v' (j + k)%nat) →
  weighted_sum total v j ws <= weighted_sum total v' j ws.
Proof.
  induction ws as [|w ws IH]; intros j Hle; simpl; [apply Qle_refl|].
  pose proof (Hle 0%nat w eq_refl) as H0. rewrite Nat.add_0_r in H0.
  assert (weighted_sum total v (S j) ws <= weighted_sum total v' (S j) ws).
  { apply IH. intros k x Hk. specialize (Hle (S k) x Hk).
    by rewrite Nat.add_succ_r in Hle. }
  lra.
Qed.

Lemma weighted_sum_const c ws j :
  weighted_sum total (λ _, c) j ws == Qsum ws / total * c.
Proof.
  revert j. induction ws as [|w ws IH]; intros j; simpl.
  - change (Qsum []) with 0. unfold Qdiv. ring.
  - rewrite IH, Qsum_cons. unfold Qdiv. ring.
Qed.

Lemma weighted_sum_compl v ws j :
  weighted_sum total (λ i, 1 - v i) j ws
  == Qsum ws / total - weighted_sum total v j ws.
Proof.
  revert j. induction ws as [|w ws IH]; intros j; simpl.
  - change (Qsum []) with 0. unfold Qdiv. ring.
  - rewrite IH, Qsum_cons. unfold Qdiv. ring.
Qed.

Lemma weighted_sum_scale v ρ ws j :
  weighted_sum total (λ i, v i * ρ) j ws == weighted_sum total v j ws * ρ.
Proof.
  revert j. induction ws as [|w ws IH]; intros j; simpl.
  - ring.
  - rewrite IH. ring.
Qed.

Lemma weighted_sum_nonneg v ws j :
  Forall (λ w, 0 <= w) ws → (∀ i, 0 <= v i) →
  0 <= weighted_sum total v j ws.
Proof.
  intros Hws Hv. revert j.
  induction Hws as [|w ws Hw _ IH]; intros j; simpl; [apply Qle_refl|].
  specialize (IH (S j)). pose proof (weight_share_nonneg _ Hw).
  pose proof (Hv j). nra.
Qed.

(** One term of the sum is a lower bound of the sum. *)
Lemma weighted_sum_term v ws : ∀ j k w,
  Forall (λ w, 0 <= w) ws → (∀ i, 0 <= v i) →
  ws !! k = Some w →
  w / total * v (j + k)%nat <= weighted_sum total v j ws.
Proof.
  induction ws as [|x ws IH]; intros j k w Hws Hv Hk; [done|].
  apply Forall_cons in Hws as [Hx Hws]. simpl. destruct k as [|k].
  - simpl in Hk. injection Hk as ->. rewrite Nat.add_0_r.
    pose proof (weighted_sum_nonneg v ws (S j) Hws Hv). lra.
  - simpl in Hk. specialize (IH (S j) k w Hws Hv Hk).
    rewrite Nat.add_succ_r. simpl in IH.
    pose proof (weight_share_nonneg _ Hx). pose proof (Hv j). nra.
Qed.
End Expectation.

Section Law.
Local Open Scope Q_scope.

Lemma weight_Some x w : weight x = Some w → x = Fin w ∧ 0 <= w.
Proof.
  destruct x as [q| |]; simpl; [|done..].
  destruct (Qle_bool 0 q) eqn:Hq; [|done].
  intros [= ->]. split; [done|]. by apply Qle_bool_iff.
Qed.

(** The weights [torch.multinomial] accepts are the entries of the row,
    all non-negative, with a positive sum. *)
Lemma multinomial_weights_Some row ws :
  multinomial_weights row = Some ws →
  Forall2 (λ x w, x = Fin w) row ws ∧ Forall (λ w, 0 <= w) ws ∧ 0 < Qsum ws.
Proof.
  unfold multinomial_weights.
  destruct (mapM weight row) as [ws'|] eqn:Hm; [|done]. simpl.
  destruct (Qeq_bool (Qsum ws') 0) eqn:Hz; [done|]. intros [= ->].
  apply mapM_Some in Hm.
  assert (Forall (λ w, 0 <= w) ws) as Hnn.
  { clear Hz. induction Hm as [|x w row ws Hx _ IH]; constructor; [|done].
    by apply weight_Some in Hx as [_ ?]. }
  split_and!; [|done|].
  - clear Hz Hnn. induction Hm as [|x w row ws Hx _ IH]; constructor; [|done].
    by apply weight_Some in Hx as [? _].
  - apply Qeq_bool_neq in Hz. pose proof (Qsum_nonneg _ Hnn).
    apply Qle_lteq in H as [?|Heq]; [done|]. destruct Hz. by symmetry.
Qed.

Variable ws : list Q.
Hypothesis ws_nonneg : Forall (λ w, 0 <= w) ws.
Hypothesis ws_pos : 0 < Qsum ws.

Lemma total_share : Qsum ws / Qsum ws == 1.
Proof. field. lra. Qed.

Lemma expectation_le v v' :
  (∀ k w, ws !! k = Some w → 0 < w → v k <= v' k) →
  expectation ws v <= expectation ws v'.
Proof.
  intros Hle. apply weighted_sum_le. intros k w Hk. simpl.
  rewrite Forall_lookup in ws_nonneg. pose proof (ws_nonneg _ _ Hk) as Hw.
  pose proof (weight_share_nonneg _ ws_pos _ Hw) as Hs.
  apply Qle_lteq in Hw as [Hw|Hw].
  - specialize (Hle _ _ Hk Hw). nra.
  - rewrite <- Hw. unfold Qdiv. rewrite !Qmult_0_l. apply Qle_refl.
Qed.

Lemma expectation_const c : expectation ws (λ _, c) == c.
Proof.
  unfold expectation. rewrite weighted_sum_const, total_share. ring.
Qed.

Lemma expectation_compl v :
  expectation ws (λ i, 1 - v i) == 1 - expectation ws v.
Proof.
  unfold expectation. rewrite weighted_sum_compl, total_share. ring.
Qed.

Lemma expectation_scale v ρ :
  expectation ws (λ i, v i * ρ) == expectation ws v * ρ.
Proof. apply weighted_sum_scale. Qed.

Lemma expectation_bounds v :
  (∀ i, 0 <= v i <= 1) → 0 <= expectation ws v <= 1.
Proof.
  intros Hv. split.
  - apply weighted_sum_nonneg; [done..|]. intros i. apply Hv.
  - eapply Qle_trans; [apply (expectation_le v (λ _, 1))|].
    + intros k w _ _. apply Hv.
    + rewrite expectation_const. apply Qle_refl.
Qed.

(** A draw of positive weight that leads to a positive value makes the
    mean positive. *)
Lemma expectation_pos v k w :
  (∀ i, 0 <= v i) → ws !! k = Some w → 0 < w → 0 < v k →
  0 < expectation ws v.
Proof.
  intros Hv Hk Hw Hvk.
  pose proof (weighted_sum_term _ ws_pos v ws 0%nat k w ws_nonneg Hv Hk) as H.
  simpl in H. fold (expectation ws v) in H.
  assert (0 < w / Qsum ws) as Hs.
  { apply Qlt_shift_div_l; [done|]. lra. }
  nra.
Qed.
End Law.

Section Chain.
Local Open Scope Q_scope.
Variable tbl : list (list fp).
Variable its : gmap nat N.

Local Abbreviation tp := (token_prob tbl its).

Lemma token_prob_valid n s ws :
  tbl !! s ≫= multinomial_weights = Some ws →
  tp (S n) s = expectation ws (after_draw its (tp n)).
Proof. intros H. simpl. by rewrite H. Qed.

Lemma token_prob_invalid n s :
  tbl !! s ≫= multinomial_weights = None → tp (S n) s = 0.
Proof. intros H. simpl. by rewrite H. Qed.

Lemma valid_weights s ws :
  tbl !! s ≫= multinomial_weights = Some ws →
  Forall (λ w, 0 <= w) ws ∧ 0 < Qsum ws.
Proof.
  destruct (tbl !! s) as [row|]; [|done]. simpl.
  intros H. by apply multinomial_weights_Some in H as (_ & ? & ?).
Qed.

Lemma after_draw_bounds k j :
  (∀ i, 0 <= k i <= 1) → 0 <= after_draw its k j <= 1.
Proof.
  intros Hk. unfold after_draw. destruct (its !! j) as [c|]; [|lra].
  case_decide; [lra|apply Hk].
Qed.

Lemma after_draw_le k k' j :
  k j <= k' j → after_draw its k j <= after_draw its k' j.
Proof.
  intros Hk. unfold after_draw. destruct (its !! j) as [c|]; [|lra].
  case_decide; [lra|done].
Qed.

(** [token_prob] is a probability ... *)
Lemma token_prob_bounds n : ∀ s, 0 <= tp n s <= 1.
Proof.
  induction n as [|n IH]; intros s; [simpl; lra|].
  destruct (tbl !! s ≫= multinomial_weights) as [ws|] eqn:Hws.
  - rewrite (token_prob_valid _ _ _ Hws).
    destruct (valid_weights _ _ Hws) as [Hnn Hpos].
    apply expectation_bounds; [done..|]. intros i.
    by apply after_draw_bounds.
  - rewrite (token_prob_invalid _ _ Hws). lra.
Qed.

(** ... that grows with the number of draws allowed. *)
Lemma token_prob_succ n : ∀ s, tp n s <= tp (S n) s.
Proof.
  induction n as [|n IH]; intros s.
  - apply (token_prob_bounds 1).
  - destruct (tbl !! s ≫= multinomial_weights) as [ws|] eqn:Hws.
    + rewrite !(token_prob_valid _ _ _ Hws).
      destruct (valid_weights _ _ Hws) as [Hnn Hpos].
      apply expectation_le; [done..|]. intros k w _ _.
      apply after_draw_le, IH.
    + rewrite !(token_prob_invalid _ _ Hws). lra.
Qed.

Lemma token_prob_mono n m s : (n ≤ m)%nat → tp n s <= tp m s.
Proof.
  induction 1 as [|m _ IH]; [apply Qle_refl|].
  eapply Qle_trans; [apply IH|apply token_prob_succ].
Qed.

(** *** Almost-sure termination on a closed set of states

    [good] is a set of states on which every draw is accepted, which no
    draw of positive weight leaves except to stop, and from each of
    which the loop stops within [L] draws with positive probability. *)
Variable good : nat → Prop.
Variable L : nat.
Hypothesis good_closed : ∀ s, good s →
  ∃ ws, tbl !! s ≫= multinomial_weights = Some ws ∧
    ∀ j w, ws !! j = Some w → 0 < w →
      ∃ c, its !! j = Some c ∧ (c = boundary ∨ good j).
Hypothesis good_hit : ∀ s, good s → 0 < tp L s.

Lemma good_lt s : good s → (s < length tbl)%nat.
Proof.
  intros (ws & Hws & _)%good_closed.
  destruct (tbl !! s) as [row|] eqn:Hrow; [|done].
  by apply lookup_lt_Some in Hrow.
Qed.

(** If after [m] draws the loop is still running with probability at
    most [ρ], whatever good state it starts from, then [n] more draws
    before multiply the two probabilities. *)
Lemma miss_product m ρ :
  (∀ s, good s → 1 - tp m s <= ρ) →
  ∀ n s, good s → 1 - tp (n + m) s <= (1 - tp n s) * ρ.
Proof.
  intros Hm. induction n as [|n IH]; intros s Hs.
  - simpl. specialize (Hm s Hs). lra.
  - destruct (good_closed s Hs) as (ws & Hws & Hnext).
    destruct (valid_weights _ _ Hws) as [Hnn Hpos].
    change (S n + m)%nat with (S (n + m)).
    rewrite !(token_prob_valid _ _ _ Hws).
    rewrite <- !(expectation_compl ws Hpos).
    rewrite <- (expectation_scale ws).
    apply expectation_le; [done..|]. intros k w Hk Hw.
    destruct (Hnext k w Hk Hw) as (c & Hc & Hcase).
    unfold after_draw. rewrite Hc. case_decide as Hb; [lra|].
    destruct Hcase as [?|Hgood]; [done|]. by apply IH.
Qed.

(** A common positive lower bound for finitely many positive values. *)
Lemma uniform_lower_bound (f : nat → Q) (m : nat) :
  ∃ δ, 0 < δ ∧ δ <= 1 ∧ ∀ s, (s < m)%nat → 0 < f s → δ <= f s.
Proof.
  induction m as [|m (δ & Hδ & Hδ1 & IH)].
  - exists 1. split_and!; [lra|lra|]. intros s Hs. lia.
  - destruct (Qlt_le_dec (f m) δ) as [Hlt|Hge].
    + destruct (Qlt_le_dec 0 (f m)) as [Hpos|Hneg].
      * exists (f m). split_and!; [done|lra|]. intros s Hs Hfs.
        destruct (decide (s = m)) as [->|Hne]; [lra|].
        assert (δ <= f s) by (apply IH; [lia|done]). lra.
      * exists δ. split_and!; [done..|]. intros s Hs Hfs.
        destruct (decide (s = m)) as [->|Hne]; [lra|].
        apply IH; [lia|done].
    + exists δ. split_and!; [done..|]. intros s Hs Hfs.
      destruct (decide (s = m)) as [->|Hne]; [done|].
      apply IH; [lia|done].
Qed.

Lemma Q_archimedean (q : Q) : ∃ k : nat, q <= inject_Z (Z.of_nat k).
Proof.
  destruct q as [a b]. exists (Z.to_nat a).
  unfold Qle, inject_Z. simpl. nia.
Qed.

(** After [k] rounds of [L] draws the loop is still running with
    probability at most [1 / (1 + k δ)]. *)
Lemma miss_rounds δ :
  0 < δ → δ <= 1 → (∀ s, good s → δ <= tp L s) →
  ∀ k s, good s →
    (1 - tp (k * L) s) * (1 + inject_Z (Z.of_nat k) * δ) <= 1.
Proof.
  intros Hδ Hδ1 Hhit. induction k as [|k IH]; intros s Hs.
  - change (tp (0 * L) s) with 0. change (inject_Z (Z.of_nat 0)) with 0. lra.
  - set (x := inject_Z (Z.of_nat k)) in *.
    assert (0 <= x) as Hx.
    { unfold x. change 0 with (inject_Z 0). rewrite <- Zle_Qle. lia. }
    assert (inject_Z (Z.of_nat (S k)) == x + 1) as ->.
    { unfold x. rewrite Nat2Z.inj_succ, <- Z.add_1_r, inject_Z_plus.
      reflexivity. }
    change (S k * L)%nat with (L + k * L)%nat.
    assert (∀ s', good s' → 1 - tp (k * L) s' <= 1 / (1 + x * δ)) as Hρ.
    { intros s' Hs'. apply Qle_shift_div_l; [nra|]. by apply IH. }
    pose proof (miss_product _ _ Hρ L s Hs) as Hprod.
    pose proof (Hhit s Hs) as Hs1.
    pose proof (token_prob_bounds L s) as [_ Hs2].
    assert (0 < 1 + x * δ) as Hden by nra.
    assert (0 < 1 / (1 + x * δ)) as Hrpos.
    { apply Qlt_shift_div_l; [done|]. lra. }
    assert (1 / (1 + x * δ) * (1 + x * δ) == 1) as Hinv.
    { field. lra. }
    set (r := 1 / (1 + x * δ)) in *.
    set (a := tp L s) in *. set (u := tp (L + k * L) s) in *.
    assert (1 - u <= (1 - δ) * r) as H1 by nra.
    assert ((1 - δ) * (1 + (x + 1) * δ) <= 1 + x * δ) as H2 by nra.
    assert (0 <= 1 + (x + 1) * δ) as H3 by nra.
    apply Qle_trans with ((1 - δ) * r * (1 + (x + 1) * δ)).
    { apply Qmult_le_compat_r; done. }
    apply Qle_trans with (r * (1 + x * δ)); [|lra].
    assert ((1 - δ) * r * (1 + (x + 1) * δ)
            == r * ((1 - δ) * (1 + (x + 1) * δ))) as -> by ring.
    apply Qmult_le_l; done.
Qed.

(** From a good state the loop reaches [break] with probability 1: the
    probability of a stop within [n] draws tends to 1. *)
Lemma good_almost_sure s :
  good s → ∀ ε, 0 < ε → ∃ n0, ∀ n, (n0 ≤ n)%nat → 1 - ε <= tp n s.
Proof.
  intros Hs ε Hε.
  destruct (uniform_lower_bound (tp L) (length tbl)) as (δ & Hδ & Hδ1 & Hlow).
  assert (∀ s', good s' → δ <= tp L s') as Hhit.
  { intros s' Hs'. apply Hlow; [by apply good_lt|by apply good_hit]. }
  destruct (Q_archimedean (1 / (ε * δ))) as [k Hk].
  exists (k * L)%nat. intros n Hn.
  eapply Qle_trans; [|apply (token_prob_mono _ _ _ Hn)].
  pose proof (miss_rounds δ Hδ Hδ1 Hhit k s Hs) as Hround.
  pose proof (token_prob_bounds (k * L) s) as [_ Hle1].
  set (x := inject_Z (Z.of_nat k)) in *.
  assert (0 < ε * δ) as Hεδ by nra.
  assert (1 <= x * (ε * δ)) as Hx.
  { assert (1 / (ε * δ) * (ε * δ) == 1) as <- by (field; lra).
    apply Qmult_le_compat_r; [done|lra]. }
  set (u := tp (k * L) s) in *.
  assert (0 <= x) as Hx0.
  { unfold x. change 0 with (inject_Z 0). rewrite <- Zle_Qle. lia. }
  nra.
Qed.
End Chain.

(** ** The chain of a corpus *)

Lemma zip_tail_pairs c (l : list N) : zip (c :: l) l = pairs_from c l.
Proof.
  revert c. induction l as [|d l IH]; intros c; [done|].
  simpl. f_equal. apply IH.
Qed.

Lemma bigrams_pairs (nm : list N) :
  bigrams nm = pairs_from boundary (nm ++ [boundary]).
Proof. unfold bigrams, padded_name. apply zip_tail_pairs. Qed.

Lemma pairs_from_suffix pre : ∀ c0 c l,
  pairs_from c l ⊆ pairs_from c0 (pre ++ c :: l).
Proof.
  induction pre as [|x pre IH]; intros c0 c l b Hb; simpl.
  - by right.
  - right. by apply IH.
Qed.

Lemma route_of_name bs (l : list N) : ∀ c,
  pairs_from c (l ++ [boundary]) ⊆ bs → route bs c (S (length l)).
Proof.
  induction l as [|d l IH]; intros c Hsub.
  - apply route_end, Hsub. simpl. left.
  - simpl. apply route_next with d.
    + apply Hsub. simpl. left.
    + apply IH. intros b Hb. apply Hsub. simpl. by right.
Qed.

Lemma bigrams_all_bigrams (words : list (list N)) nm :
  nm ∈ words → bigrams nm ⊆ all_bigrams words.
Proof.
  intros Hnm b Hb. unfold all_bigrams. apply list_elem_of_join.
  exists (bigrams nm). split; [done|]. apply list_elem_of_fmap. eauto.
Qed.

Lemma length_name_le (words : list (list N)) nm :
  nm ∈ words → (length nm ≤ length (mjoin words))%nat.
Proof.
  induction 1 as [nm words|nm nm' words _ IH]; simpl; rewrite length_app; lia.
Qed.

(** In a corpus with at least one name, '^' and every character of the
    corpus start a route no longer than the corpus. *)
Lemma route_exists (words : list (list N)) c :
  words ≠ [] → c = boundary ∨ c ∈ mjoin words →
  ∃ n, (n ≤ S (length (mjoin words)))%nat ∧ route (all_bigrams words) c n.
Proof.
  intros Hne [->|Hc].
  - destruct words as [|nm words]; [done|].
    exists (S (length nm)). split.
    + simpl. rewrite length_app. lia.
    + apply route_of_name. rewrite <- bigrams_pairs.
      apply bigrams_all_bigrams. left.
  - apply list_elem_of_join in Hc as (nm & Hc & Hnm).
    apply list_elem_of_split in Hc as (pre & rest & ->).
    exists (S (length rest)). split.
    + apply length_name_le in Hnm. rewrite length_app in Hnm. simpl in Hnm. lia.
    + apply route_of_name. intros b Hb.
      apply (bigrams_all_bigrams words (pre ++ c :: rest) Hnm).
      rewrite bigrams_pairs, <- app_assoc. simpl.
      by apply pairs_from_suffix.
Qed.

Lemma route_first bs c n : route bs c n → ∃ d, (c, d) ∈ bs.
Proof. destruct 1; eauto. Qed.

Section RowLaw.
Local Open Scope Q_scope.

Lemma Qsum_div (row : list Q) (d : Q) :
  Qsum ((λ x, x / d) <$> row) == Qsum row / d.
Proof.
  induction row as [|x row IH].
  - rewrite fmap_nil. change (Qsum []) with 0. unfold Qdiv. ring.
  - rewrite fmap_cons, !Qsum_cons, IH. unfold Qdiv. ring.
Qed.

(** In exact arithmetic a row divided by its nonzero sum adds up to 1;
    float32 rounding, which the model leaves out, is what separates the
    script's rows from this. *)
Lemma normalize_row_sum (row : list Q) :
  ¬ Qsum row == 0 → Qsum ((λ x, x / Qsum row) <$> row) == 1.
Proof. intros Hne. rewrite Qsum_div. by field. Qed.

(** A row of non-negative counts with a positive sum is accepted by
    [torch.multinomial]; the weights are the counts over their sum. *)
Lemma normalize_row_weights (r : list Z) :
  Forall (λ c : Z, (0 ≤ c)%Z) r → (0 < row_sum r)%Z →
  multinomial_weights (normalize_row (inject_Z <$> r))
  = Some ((λ x, x / Qsum (inject_Z <$> r)) <$> (inject_Z <$> r)).
Proof.
  intros Hnn Hpos.
  set (row := inject_Z <$> r). set (total := Qsum row).
  assert (0 < total) as Htotal.
  { unfold total, row. rewrite Qsum_inject_Z.
    change 0 with (inject_Z 0). by rewrite <- Zlt_Qlt. }
  assert (Qeq_bool total 0 = false) as Hz.
  { destruct (Qeq_bool total 0) eqn:E; [|done].
    apply Qeq_bool_iff in E. lra. }
  unfold multinomial_weights, normalize_row. fold row total.
  assert (mapM weight ((λ x, fdiv x total) <$> row)
          = Some ((λ x, x / total) <$> row)) as ->.
  { apply mapM_Some_2, Forall2_fmap, Forall_Forall2_diag.
    unfold row. apply Forall_fmap. eapply Forall_impl; [exact Hnn|].
    intros c Hc. simpl. unfold fdiv. rewrite Hz. simpl.
    assert (Qle_bool 0 (inject_Z c / total) = true) as ->; [|done].
    apply Qle_bool_iff, Qle_shift_div_l; [done|].
    rewrite Qmult_0_l. change 0 with (inject_Z 0). by rewrite <- Zle_Qle. }
  simpl.
  assert (Qeq_bool (Qsum ((λ x, x / total) <$> row)) 0 = false) as ->; [|done].
  destruct (Qeq_bool (Qsum ((λ x, x / total) <$> row)) 0) eqn:E; [|done].
  apply Qeq_bool_iff in E. unfold total in E.
  rewrite normalize_row_sum in E; [discriminate E|].
  fold total. lra.
Qed.

Lemma normalized_weight_pos (r : list Z) j w :
  (0 < row_sum r)%Z →
  ((λ x, x / Qsum (inject_Z <$> r)) <$> (inject_Z <$> r)) !! j = Some w →
  ∃ c, r !! j = Some c ∧ (0 < w ↔ (0 < c)%Z).
Proof.
  intros Hpos. rewrite !list_lookup_fmap.
  destruct (r !! j) as [c|]; [|done]. simpl. intros [= <-].
  exists c. split; [done|].
  assert (0 < Qsum (inject_Z <$> r)) as Htotal.
  { rewrite Qsum_inject_Z. change 0 with (inject_Z 0). by rewrite <- Zlt_Qlt. }
  assert (inject_Z c / Qsum (inject_Z <$> r) * Qsum (inject_Z <$> r)
          == inject_Z c) as Hmul by (field; lra).
  rewrite Zlt_Qlt. change (inject_Z 0) with 0.
  set (x := inject_Z c) in *. set (total := Qsum (inject_Z <$> r)) in *.
  set (w := x / total) in *.
  split.
  - intros Hw. nra.
  - intros Hx. unfold w. apply Qlt_shift_div_l; [done|]. lra.
Qed.
End RowLaw.

Section CorpusChain.
Local Open Scope Q_scope.
Variable words : list (list N).
Variable t : list (list Z).
Hypothesis counted : bigram_counts words = Some t.
Hypothesis fits : no_wrap words.

Local Abbreviation V := (vocab_size words).
Local Abbreviation st := (stoi words).
Local Abbreviation bs := (all_bigrams words).
Local Abbreviation tp := (token_prob (normalize t) (itos words)).

(** While nothing wraps, the rows hold the bigram counts themselves. *)
Lemma counts_row s :
  (s < V)%nat →
  ∃ r, t !! s = Some r ∧ length r = V ∧ Forall (λ c : Z, (0 ≤ c)%Z) r ∧
       ∀ j, (j < V)%nat → r !! j = Some (occ st bs s j).
Proof.
  intros Hs.
  destruct (no_wrap_cells words t fits counted) as [[Hlen Hrows] Hcell].
  destruct (lookup_lt_is_Some_2 t s) as [r Hr]; [lia|].
  rewrite Forall_lookup in Hrows. pose proof (Hrows _ _ Hr) as Hrlen.
  assert (∀ j, (j < V)%nat → r !! j = Some (occ st bs s j)) as Hcells.
  { intros j Hj. specialize (Hcell s j Hs Hj).
    unfold cell in Hcell. by rewrite Hr in Hcell. }
  exists r. split_and!; [done..| |done].
  apply Forall_lookup. intros j c Hc.
  assert (j < V)%nat as Hj by (rewrite <- Hrlen; by apply lookup_lt_Some in Hc).
  rewrite (Hcells j Hj) in Hc. injection Hc as <-. apply occ_nonneg.
Qed.

(** A state with a counted successor has a row that
    [torch.multinomial] accepts, and the draws of positive weight are
    the counted successors. *)
Lemma row_law s j0 :
  (s < V)%nat → (j0 < V)%nat → (0 < occ st bs s j0)%Z →
  ∃ ws, normalize t !! s ≫= multinomial_weights = Some ws ∧
    (∀ j w, ws !! j = Some w → 0 < w → (0 < occ st bs s j)%Z) ∧
    (∀ j, (j < V)%nat → (0 < occ st bs s j)%Z →
          ∃ w, ws !! j = Some w ∧ 0 < w).
Proof.
  intros Hs Hj0 Hocc.
  destruct (counts_row s Hs) as (r & Hr & Hrlen & Hnn & Hcells).
  assert (0 < row_sum r)%Z as Hpos.
  { pose proof (Zsum_lookup_le _ _ _ Hnn (Hcells j0 Hj0)). lia. }
  eexists. split_and!.
  - rewrite (normalize_lookup _ _ _ Hr). simpl.
    by apply normalize_row_weights.
  - intros j w Hw Hwpos.
    destruct (normalized_weight_pos r j w Hpos Hw) as (c & Hc & Hiff).
    assert (j < V)%nat as Hj
      by (rewrite <- Hrlen; by apply lookup_lt_Some in Hc).
    rewrite (Hcells j Hj) in Hc. injection Hc as <-. by apply Hiff.
  - intros j Hj Hoccj.
    destruct (((λ x, x / Qsum (inject_Z <$> r)) <$> (inject_Z <$> r)) !! j)
      as [w|] eqn:Hw.
    + exists w. split; [done|].
      destruct (normalized_weight_pos r j w Hpos Hw) as (c & Hc & Hiff).
      rewrite (Hcells j Hj) in Hc. injection Hc as <-. by apply Hiff.
    + rewrite !list_lookup_fmap, (Hcells j Hj) in Hw. done.
Qed.

Lemma bigram_occ c d :
  (c, d) ∈ bs →
  ∃ s j, st !! c = Some s ∧ st !! d = Some j ∧
         (s < V)%nat ∧ (j < V)%nat ∧ (0 < occ st bs s j)%Z.
Proof.
  intros Hin.
  pose proof (all_bigrams_indexed words) as Hix. unfold indexed in Hix.
  rewrite Forall_forall in Hix.
  destruct (Hix _ Hin) as (s & j & Hs & Hj & ? & ?). simpl in *.
  exists s, j. split_and!; try done. apply occ_pos. exists (c, d). done.
Qed.

(** The visited states are closed under the draws of positive weight. *)
Lemma visited_closed s :
  words ≠ [] → visited words s →
  ∃ ws, normalize t !! s ≫= multinomial_weights = Some ws ∧
    ∀ j w, ws !! j = Some w → 0 < w →
      ∃ c, itos words !! j = Some c ∧ (c = boundary ∨ visited words j).
Proof.
  intros Hne (c & Hc & Hs).
  destruct (route_exists words c Hne Hc) as (n & _ & Hroute).
  apply route_first in Hroute as [d Hd].
  apply bigram_occ in Hd as (s' & j0 & Hs' & _ & Hlt & Hj0 & Hocc).
  rewrite Hs in Hs'. injection Hs' as <-.
  destruct (row_law s j0 Hlt Hj0 Hocc) as (ws & Hws & Hfrom & _).
  exists ws. split; [done|]. intros j w Hw Hwpos.
  apply (Hfrom j w Hw), occ_pos in Hwpos as ([c1 c2] & Hin & _ & Hc2).
  simpl in Hc2. exists c2. split; [by apply itos_lookup|].
  destruct (decide (c2 = boundary)) as [?|Hnb]; [by left|right].
  exists c2. split; [|done]. right.
  apply list_elem_of_join in Hin as (l & Hin & Hl).
  apply list_elem_of_fmap in Hl as (nm & -> & Hnm).
  apply elem_of_bigrams in Hin as [_ [?|Hin]]; [done|].
  apply list_elem_of_join. eauto.
Qed.

(** Along a route of [n] bigrams the loop stops within [n] draws with
    positive probability. *)
Lemma route_hit c n :
  route bs c n → ∀ s, st !! c = Some s → 0 < tp n s.
Proof.
  induction 1 as [c Hin|c d n Hin Hroute IH]; intros s Hs.
  - apply bigram_occ in Hin as (s' & j & Hs' & Hj & Hlt & Hjlt & Hocc).
    rewrite Hs in Hs'. injection Hs' as <-.
    destruct (row_law s j Hlt Hjlt Hocc) as (ws & Hws & _ & Hto).
    destruct (Hto j Hjlt Hocc) as (w & Hw & Hwpos).
    rewrite (token_prob_valid _ _ _ _ _ Hws).
    destruct (valid_weights _ _ _ Hws) as [Hnn Hpos].
    apply (expectation_pos ws Hnn Hpos _ j w); try done.
    + intros i. apply after_draw_bounds. intros i'. simpl. lra.
    + unfold after_draw. rewrite (proj2 (itos_lookup words j boundary) Hj).
      rewrite decide_True by done. lra.
  - apply bigram_occ in Hin as (s' & j & Hs' & Hj & Hlt & Hjlt & Hocc).
    rewrite Hs in Hs'. injection Hs' as <-.
    destruct (row_law s j Hlt Hjlt Hocc) as (ws & Hws & _ & Hto).
    destruct (Hto j Hjlt Hocc) as (w & Hw & Hwpos).
    rewrite (token_prob_valid _ _ _ _ _ Hws).
    destruct (valid_weights _ _ _ Hws) as [Hnn Hpos].
    apply (expectation_pos ws Hnn Hpos _ j w); try done.
    + intros i. apply after_draw_bounds. apply token_prob_bounds.
    + unfold after_draw. rewrite (proj2 (itos_lookup words j d) Hj).
      case_decide; [lra|]. by apply IH.
Qed.

Lemma visited_hit s :
  words ≠ [] → visited words s → 0 < tp (S (length (mjoin words))) s.
Proof.
  intros Hne (c & Hc & Hs).
  destruct (route_exists words c Hne Hc) as (n & Hn & Hroute).
  eapply Qlt_le_trans; [apply (route_hit c n Hroute s Hs)|].
  by apply token_prob_mono.
Qed.

Lemma visited_start : visited words 0.
Proof. exists boundary. split; [by left|apply stoi_boundary]. Qed.
End CorpusChain.

(** C2 (as stated) fails on the empty corpus: the probability table is
    [[NaN]], every draw raises, and no token is ever produced. *)
Lemma empty_corpus_never_terminates : ¬ terminates_almost_surely [].
Proof.
  intros (m & Hm & Hlim). vm_compute in Hm. injection Hm as <-.
  destruct (Hlim (1 # 2)%Q eq_refl) as [n0 Hn0].
  specialize (Hn0 n0 (le_n n0)). simpl in Hn0.
  destruct n0; vm_compute in Hn0; by apply Hn0.
Qed.

(** C2 (amended): for every corpus with at least one name in which no
    bigram occurs more than 2^31 - 1 times (so that no int32 count
    wraps), the model is built and the sampling loop started at index 0
    terminates with probability 1, each run that stops having printed a
    finite token. *)
Theorem sampler_terminates words :
  words ≠ [] → no_wrap words → terminates_almost_surely words.
Proof.
  intros Hne Hfit.
  destruct (bigram_counts_spec words) as (t & Ht & _).
  exists (Model (vocab_size words) (stoi words) (itos words) t (normalize t)).
  split; [unfold build; by rewrite Ht|]. simpl.
  apply (good_almost_sure (normalize t) (itos words) (visited words)
           (S (length (mjoin words)))).
  - intros s Hs. by apply (visited_closed words t Ht Hfit).
  - intros s Hs. by apply (visited_hit words t Ht Hfit).
  - apply visited_start.
Qed.

Lemma sampler_terminates_witness :
  terminates_almost_surely [[97%N; 98%N]; [97%N]].
Proof.
  apply (sampler_terminates [[97%N; 98%N]; [97%N]]).
  - discriminate.
  - apply fits_no_wrap. vm_compute. discriminate.
Defined.

(** *** Why the int32 bound is needed

    In the corpus of [n] names "a" and one empty name, at [n = 2^31] the
    count of '^'->a has wrapped to -2^31, the first row of the
    probability table has a negative entry and the first draw raises. *)
Lemma many_a_succ n : many_a (S n) = [97%N] :: many_a n.
Proof. reflexivity. Qed.

Lemma many_a_characters n : characters (many_a (S n)) = [97%N].
Proof.
  unfold characters.
  assert (list_to_set (C := gset N) (mjoin (many_a (S n))) = {[97%N]}) as ->.
  { induction n as [|n IH]; [reflexivity|].
    rewrite many_a_succ.
    change (mjoin ([97%N] :: many_a (S n)))
      with (97%N :: mjoin (many_a (S n))).
    rewrite list_to_set_cons, IH. set_solver. }
  rewrite elements_singleton. reflexivity.
Qed.

Lemma many_a_stoi n : stoi (many_a (S n)) = stoi [[97%N]].
Proof. unfold stoi. rewrite many_a_characters. reflexivity. Qed.

Lemma many_a_occ (st : gmap N nat) n :
  st !! boundary = Some 0%nat → st !! 97%N = Some 1%nat →
  occ st (all_bigrams (many_a n)) 0 0 = 1 ∧
  occ st (all_bigrams (many_a n)) 0 1 = Z.of_nat n.
Proof.
  intros Hb Ha. induction n as [|n [IH0 IH1]].
  - change (all_bigrams (many_a 0)) with [(boundary, boundary)].
    rewrite !occ_cons, !occ_nil. simpl. rewrite Hb.
    rewrite decide_True by done. rewrite decide_False by (by intros [_ ?]).
    done.
  - rewrite many_a_succ, all_bigrams_cons.
    change (bigrams [97%N]) with [(boundary, 97%N); (97%N, boundary)].
    change ([(boundary, 97%N); (97%N, boundary)] ++ all_bigrams (many_a n))
      with ((boundary, 97%N) :: (97%N, boundary) :: all_bigrams (many_a n)).
    rewrite !occ_cons, IH0, IH1. simpl. rewrite Hb, Ha.
    rewrite (decide_False (P := Some 0%nat = Some 0%nat ∧ Some 1%nat = Some 0%nat))
      by (by intros [_ ?]).
    rewrite (decide_False (P := Some 1%nat = Some 0%nat ∧ Some 0%nat = Some 0%nat))
      by (by intros [? _]).
    rewrite (decide_True (P := Some 0%nat = Some 0%nat ∧ Some 1%nat = Some 1%nat))
      by done.
    rewrite (decide_False (P := Some 1%nat = Some 0%nat ∧ Some 0%nat = Some 1%nat))
      by (by intros [? _]).
    lia.
Qed.

Lemma many_a_first_row n :
  ∃ t, bigram_counts (many_a (S n)) = Some t ∧
       t !! 0%nat = Some [1; wrap32 (Z.of_nat (S n))].
Proof.
  destruct (bigram_counts_spec (many_a (S n)))
    as (t & Ht & [Hlen Hrows] & Hcell).
  exists t. split; [done|].
  assert (vocab_size (many_a (S n)) = 2%nat) as HV.
  { unfold vocab_size. by rewrite many_a_characters. }
  rewrite HV in *.
  destruct (many_a_occ (stoi (many_a (S n))) (S n)) as [H0 H1].
  { apply stoi_boundary. }
  { rewrite many_a_stoi. reflexivity. }
  pose proof (Hcell 0%nat 0%nat) as C0. pose proof (Hcell 0%nat 1%nat) as C1.
  rewrite H0 in C0 by lia. rewrite H1 in C1 by lia.
  specialize (C0 ltac:(lia) ltac:(lia)). specialize (C1 ltac:(lia) ltac:(lia)).
  unfold cell in C0, C1.
  destruct (t !! 0%nat) as [r|] eqn:Hr; [|done]. simpl in C0, C1.
  rewrite Forall_lookup in Hrows. specialize (Hrows _ _ Hr).
  destruct r as [|c0 [|c1 [|? ?]]]; try done.
  simpl in C0, C1. by simplify_eq.
Qed.

Lemma wrapped_counts_never_terminate :
  ¬ terminates_almost_surely (many_a (Z.to_nat (2 ^ 31))).
Proof.
  assert (∃ n, Z.to_nat (2 ^ 31) = S n ∧ Z.of_nat (S n) = 2 ^ 31)
    as (n & -> & Hn).
  { exists (Z.to_nat (2 ^ 31 - 1)). split; [|rewrite <- Z2Nat.inj_succ]; lia. }
  intros (m & Hm & Hlim).
  destruct (many_a_first_row n) as (t & Ht & Hrow).
  unfold build in Hm. rewrite Ht in Hm. simpl in Hm. injection Hm as <-.
  simpl in Hlim. rewrite Hn in Hrow.
  assert (∀ k, token_prob (normalize t) (itos (many_a (S n))) k 0 = 0%Q) as Hz.
  { intros [|k]; [done|]. apply token_prob_invalid.
    rewrite (normalize_lookup _ _ _ Hrow). reflexivity. }
  destruct (Hlim (1 # 2)%Q eq_refl) as [n0 Hn0].
  specialize (Hn0 n0 (le_n n0)). rewrite Hz in Hn0. by apply Hn0.
Qed.

(** * Further properties of the script *)

(** ** The vocabulary, for every corpus *)

Lemma StronglySorted_lookup_rel {A} (R : relation A) (l : list A) i j x y :
  StronglySorted R l → (i < j)%nat →
  l !! i = Some x → l !! j = Some y → R x y.
Proof.
  intros Hl. revert i j. induction Hl as [|a l Hl IH Ha]; intros i j Hij Hi Hj.
  - done.
  - destruct j as [|j]; [lia|]. simpl in Hj. destruct i as [|i].
    + simpl in Hi. injection Hi as <-.
      rewrite Forall_forall in Ha. apply Ha.
      apply list_elem_of_lookup. eauto.
    + simpl in Hi. apply (IH i j); [lia|done..].
Qed.

(** Later positions of [characters] hold larger code points. *)
Lemma characters_lt (words : list (list N)) i j c d :
  (i < j)%nat → characters words !! i = Some c →
  characters words !! j = Some d → (c < d)%N.
Proof.
  intros Hij Hi Hj.
  assert (c ≤ d)%N as Hle.
  { apply (StronglySorted_lookup_rel N.le (characters words) i j);
      [|done..].
    unfold characters. apply StronglySorted_merge_sort; apply _. }
  assert (c ≠ d); [|lia].
  intros ->.
  pose proof (NoDup_lookup _ _ _ _ (characters_NoDup words) Hi Hj). lia.
Qed.

(** X1: [characters] lists exactly the characters that occur in the
    corpus, each once, in strictly increasing order of code point, and
    [vocab_size] is their number plus one. *)
Theorem characters_sorted_distinct (words : list (list N)) :
  (∀ c, c ∈ characters words ↔ c ∈ mjoin words) ∧
  (∀ i j c d, (i < j)%nat → characters words !! i = Some c →
              characters words !! j = Some d → (c < d)%N) ∧
  vocab_size words
  = (size (list_to_set (C := gset N) (mjoin words)) + 1)%nat.
Proof.
  split_and!.
  - apply elem_of_characters.
  - apply characters_lt.
  - apply vocab_size_alphabet.
Qed.

(** X2: the indices follow the order of the code points: of two
    characters other than '^', the smaller one has the smaller index,
    and the index of a character is one more than its position in
    [characters]. *)
Theorem stoi_order_preserving (words : list (list N)) c d i j :
  c ≠ boundary → d ≠ boundary →
  stoi words !! c = Some i → stoi words !! d = Some j →
  characters words !! (i - 1)%nat = Some c ∧ (1 ≤ i)%nat ∧
  ((c < d)%N ↔ (i < j)%nat).
Proof.
  intros Hc Hd Hi Hj.
  apply stoi_lookup in Hi as [[? _]|[_ (k & -> & Hk)]]; [done|].
  apply stoi_lookup in Hj as [[? _]|[_ (k' & -> & Hk')]]; [done|].
  replace (k + 1 - 1)%nat with k by lia.
  split_and!; [done|lia|]. split.
  - intros Hlt. destruct (decide (k < k')%nat) as [?|Hge]; [lia|].
    exfalso. destruct (decide (k = k')) as [->|Hne].
    + rewrite Hk in Hk'. injection Hk' as ->. lia.
    + assert (d < c)%N; [|lia].
      apply (characters_lt words k' k); [lia|done..].
  - intros Hlt. apply (characters_lt words k k'); [lia|done..].
Qed.

Lemma stoi_order_preserving_witness :
  characters [[98%N; 97%N]] !! (1 - 1)%nat = Some 97%N ∧ (1 ≤ 1)%nat ∧
  ((97 < 98)%N ↔ (1 < 2)%nat).
Proof.
  apply (stoi_order_preserving [[98%N; 97%N]] 97%N 98%N 1%nat 2%nat);
    [discriminate|discriminate|vm_compute; reflexivity..].
Defined.

(** X3: the two dictionaries are inverse to each other on every corpus:
    '^' and every character of the corpus has an index below
    [vocab_size], [itos] maps that index back to the character, and
    every entry of [itos] comes from [stoi]; neither lookup of the
    counting loop can raise a KeyError. *)
Theorem stoi_itos_round_trip (words : list (list N)) :
  (∀ c, c = boundary ∨ c ∈ mjoin words →
        ∃ i, stoi words !! c = Some i ∧ (i < vocab_size words)%nat ∧
             itos words !! i = Some c) ∧
  (∀ i c, itos words !! i = Some c →
          stoi words !! c = Some i ∧ (c = boundary ∨ c ∈ mjoin words)).
Proof.
  split.
  - intros c Hc. destruct (stoi_total words c Hc) as [i Hi].
    exists i. split_and!; [done|by eapply stoi_lt|by apply itos_lookup].
  - intros i c Hi. apply itos_lookup in Hi. split; [done|].
    apply stoi_lookup in Hi as [[-> _]|[_ (k & _ & Hk)]]; [by left|right].
    apply elem_of_characters, list_elem_of_lookup. eauto.
Qed.

(** ** The tables, for every corpus *)

Lemma normalize_shape n t :
  square n t →
  length (normalize t) = n ∧
  Forall (λ r : list fp, length r = n) (normalize t).
Proof.
  intros [Hlen Hrows]. unfold normalize, float_, normalize_row.
  rewrite !length_fmap. split; [done|].
  apply Forall_fmap, Forall_fmap. eapply Forall_impl; [exact Hrows|].
  intros r Hr. simpl. by rewrite !length_fmap.
Qed.

(** X4: the build raises on no corpus at all -- no KeyError in [stoi], no
    IndexError in the matrix -- and both tables have the shape
    (vocab_size, vocab_size), with vocab_size at least 1. *)
Theorem build_never_raises (words : list (list N)) :
  ∃ m, build words = Some m ∧
    (1 ≤ vocab_size words)%nat ∧
    square (vocab_size words) (m_counts m) ∧
    length (m_probs m) = vocab_size words ∧
    Forall (λ r : list fp, length r = vocab_size words) (m_probs m).
Proof.
  destruct (bigram_counts_spec words) as (t & Ht & Hsq & _).
  exists (Model (vocab_size words) (stoi words) (itos words) t (normalize t)).
  destruct (normalize_shape _ _ Hsq) as [Hlen Hrows].
  split_and!; try done.
  - unfold build. by rewrite Ht.
  - unfold vocab_size. lia.
Qed.

Lemma occ_transitions (words : list (list N)) c d i j :
  stoi words !! c = Some i → stoi words !! d = Some j →
  occ (stoi words) (all_bigrams words) i j = transitions words c d.
Proof.
  intros Hi Hj. unfold occ, transitions. do 2 f_equal.
  apply list_filter_iff. intros [x y]. simpl. split.
  - intros [Hx Hy]. f_equal; eapply stoi_inj; eauto.
  - intros [= -> ->]. done.
Qed.

(** X5: the count matrix is the histogram of the bigrams: for any two
    symbols [c] and [d] ('^' or characters of the corpus) the cell
    [bigram_counts[stoi[c]][stoi[d]]] holds the number of times [d]
    follows [c] in the padded names, reduced to int32; it is that number
    itself as long as it is below 2^31. *)
Theorem counts_are_transitions (words : list (list N)) c d :
  c = boundary ∨ c ∈ mjoin words → d = boundary ∨ d ∈ mjoin words →
  ∃ t i j, bigram_counts words = Some t ∧
    stoi words !! c = Some i ∧ stoi words !! d = Some j ∧
    cell t i j = Some (wrap32 (transitions words c d)) ∧
    (transitions words c d ≤ int32_max →
     cell t i j = Some (transitions words c d)).
Proof.
  intros Hc Hd.
  destruct (bigram_counts_spec words) as (t & Ht & Hsq & Hcell).
  destruct (stoi_total words c Hc) as [i Hi].
  destruct (stoi_total words d Hd) as [j Hj].
  exists t, i, j.
  specialize (Hcell i j (stoi_lt _ _ _ Hi) (stoi_lt _ _ _ Hj)).
  rewrite (occ_transitions words c d i j Hi Hj) in Hcell.
  split_and!; try done.
  intros Hle. rewrite Hcell. f_equal. apply wrap32_small.
  unfold transitions in *. unfold int32_max in *. lia.
Qed.

Lemma counts_are_transitions_witness :
  ∃ t i j, bigram_counts [[97%N; 97%N]] = Some t ∧
    stoi [[97%N; 97%N]] !! 97%N = Some i ∧
    stoi [[97%N; 97%N]] !! 97%N = Some j ∧
    cell t i j = Some (wrap32 (transitions [[97%N; 97%N]] 97%N 97%N)) ∧
    (transitions [[97%N; 97%N]] 97%N 97%N ≤ int32_max →
     cell t i j = Some (transitions [[97%N; 97%N]] 97%N 97%N)).
Proof.
  apply (counts_are_transitions [[97%N; 97%N]] 97%N 97%N);
    right; apply list_elem_of_In; simpl; by left.
Defined.

(** *** The order of the names does not matter *)

Lemma characters_perm (words words' : list (list N)) :
  words ≡ₚ words' → characters words = characters words'.
Proof.
  intros Hp. unfold characters. do 2 f_equal.
  apply list_to_set_perm_L. by rewrite Hp.
Qed.

Lemma all_bigrams_perm (words words' : list (list N)) :
  words ≡ₚ words' → all_bigrams words ≡ₚ all_bigrams words'.
Proof. intros Hp. unfold all_bigrams. by rewrite Hp. Qed.

Lemma occ_perm st (bs bs' : list (N * N)) i j :
  bs ≡ₚ bs' → occ st bs i j = occ st bs' i j.
Proof. intros Hp. unfold occ. by rewrite Hp. Qed.

(** A square matrix is determined by its cells. *)
Lemma square_ext n (t t' : list (list Z)) :
  square n t → square n t' →
  (∀ i j, (i < n)%nat → (j < n)%nat → cell t i j = cell t' i j) →
  t = t'.
Proof.
  intros [Hlen Hrows] [Hlen' Hrows'] Hcell.
  rewrite Forall_lookup in Hrows. rewrite Forall_lookup in Hrows'.
  apply list_eq. intros i.
  destruct (decide (i < n)%nat) as [Hi|Hi].
  - destruct (lookup_lt_is_Some_2 t i) as [r Hr]; [lia|].
    destruct (lookup_lt_is_Some_2 t' i) as [r' Hr']; [lia|].
    rewrite Hr, Hr'. f_equal. apply list_eq. intros j.
    destruct (decide (j < n)%nat) as [Hj|Hj].
    + specialize (Hcell i j Hi Hj). unfold cell in Hcell.
      by rewrite Hr, Hr' in Hcell.
    + rewrite !(proj2 (lookup_ge_None _ _)); [done|..].
      * rewrite (Hrows' _ _ Hr'). lia.
      * rewrite (Hrows _ _ Hr). lia.
  - rewrite !(proj2 (lookup_ge_None _ _)); [done|lia..].
Qed.

(** X6: the model does not depend on the order of the names: a
    permutation of the corpus gives the same vocabulary, the same count
    matrix and the same probability table. *)
Theorem build_permutation_invariant (words words' : list (list N)) :
  words ≡ₚ words' → build words = build words'.
Proof.
  intros Hp.
  pose proof (characters_perm _ _ Hp) as Hchars.
  assert (stoi words = stoi words') as Hst by (unfold stoi; by rewrite Hchars).
  assert (itos words = itos words') as Hits by (unfold itos; by rewrite Hst).
  assert (vocab_size words = vocab_size words') as HV
    by (unfold vocab_size; by rewrite Hchars).
  destruct (bigram_counts_spec words) as (t & Ht & Hsq & Hcell).
  destruct (bigram_counts_spec words') as (t' & Ht' & Hsq' & Hcell').
  assert (t = t') as <-.
  { rewrite <- HV in Hsq', Hcell'.
    apply (square_ext (vocab_size words)); [done..|].
    intros i j Hi Hj. rewrite Hcell, Hcell' by done.
    rewrite <- Hst. do 2 f_equal. apply occ_perm. by apply all_bigrams_perm. }
  unfold build. rewrite Ht, Ht'. simpl. by rewrite Hst, Hits, HV.
Qed.

Lemma build_permutation_invariant_witness :
  build [[97%N]; [98%N; 97%N]] = build [[98%N; 97%N]; [97%N]].
Proof.
  apply (build_permutation_invariant [[97%N]; [98%N; 97%N]]).
  apply perm_swap.
Defined.

(** ** The probability table of a corpus whose counts fit in int32 *)

(** Every index below [vocab_size] belongs to a symbol, unless '^'
    occurs in the corpus. *)
Lemma index_visited (words : list (list N)) i :
  boundary ∉ mjoin words → (i < vocab_size words)%nat → visited words i.
Proof.
  intros Hfresh Hi. destruct i as [|k].
  - apply visited_start.
  - unfold vocab_size in Hi.
    destruct (lookup_lt_is_Some_2 (characters words) k) as [c Hc]; [lia|].
    assert (c ∈ mjoin words) as Hin
      by (apply elem_of_characters, list_elem_of_lookup; eauto).
    exists c. split; [by right|]. apply stoi_lookup. right. split.
    + by intros ->.
    + exists k. split; [lia|done].
Qed.

(** X7: for a corpus with at least one name, without the character '^'
    and with counts that fit in int32, every symbol occurs as a
    predecessor: every row of the count matrix has a positive sum and
    [torch.multinomial] accepts every row of the probability table, so
    the table holds no NaN and no infinity. *)
Theorem table_without_nan (words : list (list N)) :
  words ≠ [] → boundary ∉ mjoin words → no_wrap words →
  ∃ m, build words = Some m ∧
    (∀ i r, m_counts m !! i = Some r → 0 < row_sum r) ∧
    (∀ i row, m_probs m !! i = Some row →
       is_Some (multinomial_weights row) ∧ Forall (λ x, ∃ q, x = Fin q) row).
Proof.
  intros Hne Hfresh Hfit.
  destruct (bigram_counts_spec words) as (t & Ht & [Hlen Hrows] & _).
  exists (Model (vocab_size words) (stoi words) (itos words) t (normalize t)).
  split; [unfold build; by rewrite Ht|]. simpl. split.
  - intros i r Hr.
    assert (i < vocab_size words)%nat as Hi
      by (rewrite <- Hlen; by apply lookup_lt_Some in Hr).
    destruct (index_visited words i Hfresh Hi) as (c & Hc & Hs).
    destruct (route_exists words c Hne Hc) as (n & _ & Hroute).
    apply route_first in Hroute as [d Hd].
    apply (bigram_occ words) in Hd as (s & j & Hs' & _ & _ & Hj & Hocc).
    rewrite Hs in Hs'. injection Hs' as <-.
    destruct (counts_row words t Ht Hfit i Hi) as (r' & Hr' & _ & Hnn & Hcells).
    rewrite Hr in Hr'. injection Hr' as <-.
    pose proof (Zsum_lookup_le _ _ _ Hnn (Hcells j Hj)). lia.
  - intros i row Hrow.
    assert (i < vocab_size words)%nat as Hi.
    { apply lookup_lt_Some in Hrow. unfold normalize, float_ in Hrow.
      rewrite !length_fmap in Hrow. lia. }
    pose proof (index_visited words i Hfresh Hi) as Hvis.
    destruct (visited_closed words t Ht Hfit i Hne Hvis) as (ws & Hws & _).
    rewrite Hrow in Hws. simpl in Hws. split; [eauto|].
    apply multinomial_weights_Some in Hws as (Hall & _ & _).
    clear -Hall. induction Hall as [|x w row ws -> _ IH]; constructor; eauto.
Qed.

Lemma table_without_nan_witness :
  ∃ m, build [[97%N; 98%N]] = Some m ∧
    (∀ i r, m_counts m !! i = Some r → 0 < row_sum r) ∧
    (∀ i row, m_probs m !! i = Some row →
       is_Some (multinomial_weights row) ∧ Forall (λ x, ∃ q, x = Fin q) row).
Proof.
  apply (table_without_nan [[97%N; 98%N]]).
  - discriminate.
  - intros H. apply list_elem_of_In in H. simpl in H.
    destruct H as [H|[H|[]]]; discriminate H.
  - apply fits_no_wrap. vm_compute. discriminate.
Defined.

(** X8: no smoothing: for a corpus with at least one name and counts
    that fit in int32, the probability-table entry for the transition
    from symbol [c] to symbol [d] is a finite non-negative number that
    is positive exactly when [d] follows [c] somewhere in the padded
    names; a transition never seen has probability 0. *)
Theorem probability_support (words : list (list N)) c d :
  words ≠ [] → no_wrap words →
  c = boundary ∨ c ∈ mjoin words → d = boundary ∨ d ∈ mjoin words →
  ∃ m i j row q, build words = Some m ∧
    stoi words !! c = Some i ∧ stoi words !! d = Some j ∧
    m_probs m !! i = Some row ∧ row !! j = Some (Fin q) ∧
    (0 <= q)%Q ∧ ((0 < q)%Q ↔ 0 < transitions words c d).
Proof.
  intros Hne Hfit Hc Hd.
  destruct (bigram_counts_spec words) as (t & Ht & Hsq & _).
  destruct (stoi_total words c Hc) as [i Hi].
  destruct (stoi_total words d Hd) as [j Hj].
  pose proof (stoi_lt _ _ _ Hi) as Hilt. pose proof (stoi_lt _ _ _ Hj) as Hjlt.
  destruct (route_exists words c Hne Hc) as (n & _ & Hroute).
  apply route_first in Hroute as [d0 Hd0].
  apply (bigram_occ words) in Hd0 as (i' & j0 & Hi' & _ & _ & Hj0 & Hocc0).
  rewrite Hi in Hi'. injection Hi' as <-.
  destruct (row_law words t Ht Hfit i j0 Hilt Hj0 Hocc0)
    as (ws & Hws & Hfrom & Hto).
  destruct (normalize t !! i) as [row|] eqn:Hrow; [|done]. simpl in Hws.
  destruct (multinomial_weights_Some _ _ Hws) as (Hall & Hnn & _).
  assert (length ws = vocab_size words) as Hlen.
  { rewrite <- (Forall2_length _ _ _ Hall).
    destruct (normalize_shape _ _ Hsq) as [_ Hrows].
    rewrite Forall_lookup in Hrows. eauto. }
  destruct (lookup_lt_is_Some_2 ws j) as [w Hw]; [lia|].
  destruct (Forall2_lookup_r _ _ _ _ _ Hall Hw) as (x & Hx & ->).
  exists (Model (vocab_size words) (stoi words) (itos words) t (normalize t)),
    i, j, row, w.
  rewrite <- (occ_transitions words c d i j Hi Hj).
  split_and!; try done.
  - unfold build. by rewrite Ht.
  - rewrite Forall_lookup in Hnn. eauto.
  - split.
    + by apply Hfrom.
    + intros Hocc. destruct (Hto j Hjlt Hocc) as (w' & Hw' & Hpos).
      rewrite Hw in Hw'. by injection Hw' as <-.
Qed.

Lemma probability_support_witness :
  ∃ m i j row q, build [[97%N; 98%N]] = Some m ∧
    stoi [[97%N; 98%N]] !! 97%N = Some i ∧
    stoi [[97%N; 98%N]] !! 98%N = Some j ∧
    m_probs m !! i = Some row ∧ row !! j = Some (Fin q) ∧
    (0 <= q)%Q ∧ ((0 < q)%Q ↔ 0 < transitions [[97%N; 98%N]] 97%N 98%N).
Proof.
  apply (probability_support [[97%N; 98%N]] 97%N 98%N).
  - discriminate.
  - apply fits_no_wrap. vm_compute. discriminate.
  - right. apply list_elem_of_In. simpl. by left.
  - right. apply list_elem_of_In. simpl. right. by left.
Defined.

(** ** The sampling loop on the model of a corpus *)

Lemma replay_positive_lawful : lawful replay_positive.
Proof.
  intros row g d. unfold replay_positive.
  destruct (multinomial_weights row) as [ws|]; [|done]. simpl.
  destruct g as [|j g']; [done|].
  destruct (ws !! j) as [w|] eqn:Hw; [|done]. simpl.
  destruct (Qlt_le_dec 0 w) as [Hpos|]; [|done].
  intros [= <-]. simpl. eauto.
Qed.

Section LawfulSampler.
Context {gen : Type}.
Variable multinomial : list fp → gen → option (nat * gen).
Hypothesis multinomial_lawful : lawful multinomial.
Variable words : list (list N).
Variable t : list (list Z).
Hypothesis counted : bigram_counts words = Some t.
Hypothesis fits : no_wrap words.
Hypothesis nonempty : words ≠ [].

Local Abbreviation step :=
  (sampler_step multinomial (normalize t) (itos words)).

Lemma symbol_visited s c : itos words !! s = Some c → visited words s.
Proof.
  intros Hs. apply itos_lookup in Hs. exists c. split; [|done].
  apply stoi_lookup in Hs as [[-> _]|[_ (k & _ & Hk)]]; [by left|right].
  apply elem_of_characters, list_elem_of_lookup. eauto.
Qed.

(** From the state of symbol [c] a draw of positive weight is the index
    of a symbol that follows [c] somewhere in the corpus. *)
Lemma positive_draw_bigram s c ws j w :
  itos words !! s = Some c →
  normalize t !! s ≫= multinomial_weights = Some ws →
  ws !! j = Some w → (0 < w)%Q →
  ∃ c', itos words !! j = Some c' ∧ (c, c') ∈ all_bigrams words.
Proof.
  intros Hs Hws Hw Hpos.
  destruct (symbol_visited s c Hs) as (c0 & Hc0 & Hs0).
  apply itos_lookup in Hs.
  assert (c0 = c) as -> by (eapply stoi_inj; eauto).
  destruct (route_exists words c nonempty Hc0) as (n & _ & Hroute).
  apply route_first in Hroute as [d0 Hd0].
  apply (bigram_occ words) in Hd0 as (s' & j0 & Hs' & _ & Hlt & Hj0 & Hocc0).
  rewrite Hs in Hs'. injection Hs' as <-.
  destruct (row_law words t counted fits s j0 Hlt Hj0 Hocc0)
    as (ws' & Hws' & Hfrom & _).
  rewrite Hws in Hws'. injection Hws' as <-.
  apply (Hfrom j w Hw), occ_pos in Hpos as ([c1 c2] & Hin & H1 & H2).
  simpl in H1, H2.
  assert (c1 = c) as -> by (eapply stoi_inj; eauto).
  exists c2. split; [by apply itos_lookup|done].
Qed.

(** In the state of a symbol the loop body raises nothing of its own:
    the row exists, its weights are accepted, and whatever index is
    drawn has a symbol. *)
Lemma step_safe w c :
  itos words !! sampled_index w = Some c →
  ∃ row ws, normalize t !! sampled_index w = Some row ∧
    multinomial_weights row = Some ws ∧
    ∀ d, multinomial row (rng w) = Some d →
      ∃ c', itos words !! d.1 = Some c' ∧ (c, c') ∈ all_bigrams words ∧
        step w = Some (if decide (c' = boundary)
                       then inr (Walk d.1 d.2 (printed w ++ [newline]))
                       else inl (Walk d.1 d.2 (printed w ++ [c']))).
Proof.
  intros Hs.
  destruct (visited_closed words t counted fits (sampled_index w) nonempty
              (symbol_visited _ _ Hs)) as (ws & Hws & _).
  destruct (normalize t !! sampled_index w) as [row|] eqn:Hrow; [|done].
  simpl in Hws. exists row, ws. split_and!; [done..|].
  intros d Hd.
  destruct (multinomial_lawful row (rng w) d Hd) as (ws' & x & Hws' & Hx & Hpos).
  rewrite Hws in Hws'. injection Hws' as <-.
  destruct (positive_draw_bigram (sampled_index w) c ws d.1 x Hs)
    as (c' & Hc' & Hin); [by rewrite Hrow|done..|].
  exists c'. split_and!; [done..|].
  unfold sampler_step. rewrite Hrow. simpl. rewrite Hd. simpl.
  rewrite Hc'. simpl. by case_decide.
Qed.

Lemma step_inl_symbol w w1 c :
  itos words !! sampled_index w = Some c → step w = Some (inl w1) →
  ∃ c', itos words !! sampled_index w1 = Some c' ∧ c' ≠ boundary ∧
    (c, c') ∈ all_bigrams words ∧ printed w1 = printed w ++ [c'].
Proof.
  intros Hs Hstep.
  destruct (step_safe w c Hs) as (row & ws & Hrow & _ & Hdraw).
  assert (∃ d, multinomial row (rng w) = Some d) as [d Hd].
  { unfold sampler_step in Hstep. rewrite Hrow in Hstep. simpl in Hstep.
    destruct (multinomial row (rng w)); [eauto|done]. }
  destruct (Hdraw d Hd) as (c' & Hc' & Hin & Hstep').
  rewrite Hstep in Hstep'. case_decide as Hb; simplify_eq. eauto.
Qed.

Lemma step_inr_symbol w w' c :
  itos words !! sampled_index w = Some c → step w = Some (inr w') →
  (c, boundary) ∈ all_bigrams words ∧ printed w' = printed w ++ [newline].
Proof.
  intros Hs Hstep.
  destruct (step_safe w c Hs) as (row & ws & Hrow & _ & Hdraw).
  assert (∃ d, multinomial row (rng w) = Some d) as [d Hd].
  { unfold sampler_step in Hstep. rewrite Hrow in Hstep. simpl in Hstep.
    destruct (multinomial row (rng w)); [eauto|done]. }
  destruct (Hdraw d Hd) as (c' & Hc' & Hin & Hstep').
  rewrite Hstep in Hstep'. case_decide as Hb; simplify_eq. done.
Qed.

Lemma reaches_symbol w w2 :
  reaches multinomial (normalize t) (itos words) w w2 →
  is_Some (itos words !! sampled_index w) →
  is_Some (itos words !! sampled_index w2).
Proof.
  induction 1 as [w|w w1 w2 Hstep _ IH]; intros [c Hc]; [eauto|].
  apply IH. destruct (step_inl_symbol w w1 c Hc Hstep) as (c' & Hc' & _).
  eauto.
Qed.

Lemma generates_bigrams w ds w' c :
  generates multinomial (normalize t) (itos words) w ds w' →
  itos words !! sampled_index w = Some c →
  ∃ token, printed w' = printed w ++ token ++ [newline] ∧
    pairs_from c (token ++ [boundary]) ⊆ all_bigrams words.
Proof.
  intros Hrun. revert c.
  induction Hrun as [w w' Hstep|w w1 ds w' Hstep Hrun IH]; intros c Hc.
  - destruct (step_inr_symbol w w' c Hc Hstep) as [Hin Hp].
    exists []. split; [done|]. simpl. intros b Hb.
    apply list_elem_of_singleton in Hb as ->. done.
  - destruct (step_inl_symbol w w1 c Hc Hstep) as (c' & Hc' & _ & Hin & Hp).
    destruct (IH c' Hc') as (token & Hp' & Hsub).
    exists (c' :: token). split.
    + rewrite Hp', Hp. rewrite <- !app_assoc. done.
    + simpl. intros b Hb. apply elem_of_cons in Hb as [->|Hb]; [done|].
      by apply Hsub.
Qed.
End LawfulSampler.

(** X9: on the model of a corpus with at least one name and counts that
    fit in int32, and with a [torch.multinomial] that only draws indices
    of positive weight, the loop started at index 0 raises nothing of
    its own in any state it passes through: the row
    [normalized_bigram_counts[sampled_index]] exists, its weights are
    accepted, and [itos] has a symbol for the index drawn (no
    IndexError, no rejected weights, no KeyError). *)
Theorem sampler_lookups_succeed {gen : Type}
    (multinomial : list fp → gen → option (nat * gen))
    (words : list (list N)) (m : model) (seed : gen) (w : walk) :
  lawful multinomial → words ≠ [] → no_wrap words →
  build words = Some m →
  reaches multinomial (m_probs m) (m_itos m) (Walk 0%nat seed []) w →
  ∃ row ws, m_probs m !! sampled_index w = Some row ∧
    multinomial_weights row = Some ws ∧
    ∀ d, multinomial row (rng w) = Some d →
      is_Some (m_itos m !! d.1) ∧
      is_Some (sampler_step multinomial (m_probs m) (m_itos m) w).
Proof.
  intros Hlaw Hne Hfit Hm Hreach.
  unfold build in Hm. destruct (bigram_counts words) as [t|] eqn:Ht; [|done].
  simpl in Hm. injection Hm as <-. simpl in *.
  destruct (reaches_symbol multinomial Hlaw words t Ht Hfit Hne _ _ Hreach)
    as [c Hc].
  { exists boundary. by apply itos_boundary. }
  destruct (step_safe multinomial Hlaw words t Ht Hfit Hne w c Hc)
    as (row & ws & Hrow & Hws & Hdraw).
  exists row, ws. split_and!; [done..|].
  intros d Hd. destruct (Hdraw d Hd) as (c' & Hc' & _ & Hstep).
  split; [eauto|]. rewrite Hstep. eauto.
Qed.

(** X10: under the same conditions a generated name only uses
    transitions seen in the corpus: every pair of adjacent symbols of
    the printed token, padded with '^' on both sides, is a bigram of
    some padded name of the corpus. *)
Theorem token_uses_seen_bigrams {gen : Type}
    (multinomial : list fp → gen → option (nat * gen))
    (words : list (list N)) (m : model) (seed : gen) ds w' :
  lawful multinomial → words ≠ [] → no_wrap words →
  build words = Some m →
  generates multinomial (m_probs m) (m_itos m) (Walk 0%nat seed []) ds w' →
  ∃ token, printed w' = token ++ [newline] ∧
    pairs_from boundary (token ++ [boundary]) ⊆ all_bigrams words.
Proof.
  intros Hlaw Hne Hfit Hm Hrun.
  unfold build in Hm. destruct (bigram_counts words) as [t|] eqn:Ht; [|done].
  simpl in Hm. injection Hm as <-. simpl in *.
  apply (generates_bigrams multinomial Hlaw words t Ht Hfit Hne _ _ _ boundary)
    in Hrun; [done|].
  by apply itos_boundary.
Qed.

Lemma build_ab :
  build [[97%N; 98%N]]
  = Some (Model 3 (stoi [[97%N; 98%N]]) (itos [[97%N; 98%N]])
            [[0; 1; 0]; [0; 0; 1]; [1; 0; 0]]
            (normalize [[0; 1; 0]; [0; 0; 1]; [1; 0; 0]])).
Proof. vm_compute. reflexivity. Qed.

Lemma replay_positive_run_ab :
  generates replay_positive (normalize [[0; 1; 0]; [0; 0; 1]; [1; 0; 0]])
    (itos [[97%N; 98%N]])
    (Walk 0%nat [1; 2; 0]%nat [])
    [1; 2; 0]%nat
    (Walk 0%nat [] [97%N; 98%N; newline]).
Proof.
  apply (generate_generates _ _ _ 3). vm_compute. reflexivity.
Qed.

Lemma sampler_lookups_succeed_witness :
  ∃ row ws,
    normalize [[0; 1; 0]; [0; 0; 1]; [1; 0; 0]] !! 0%nat = Some row ∧
    multinomial_weights row = Some ws ∧
    ∀ d, replay_positive row [1; 2; 0]%nat = Some d →
      is_Some (itos [[97%N; 98%N]] !! d.1) ∧
      is_Some (sampler_step replay_positive
                 (normalize [[0; 1; 0]; [0; 0; 1]; [1; 0; 0]])
                 (itos [[97%N; 98%N]]) (Walk 0%nat [1; 2; 0]%nat [])).
Proof.
  apply (sampler_lookups_succeed replay_positive [[97%N; 98%N]]
           (Model 3 (stoi [[97%N; 98%N]]) (itos [[97%N; 98%N]])
              [[0; 1; 0]; [0; 0; 1]; [1; 0; 0]]
              (normalize [[0; 1; 0]; [0; 0; 1]; [1; 0; 0]]))
           [1; 2; 0]%nat (Walk 0%nat [1; 2; 0]%nat [])
           replay_positive_lawful).
  - discriminate.
  - apply fits_no_wrap. vm_compute. discriminate.
  - apply build_ab.
  - apply reaches_here.
Defined.

Lemma token_uses_seen_bigrams_witness :
  ∃ token, [97%N; 98%N; newline] = token ++ [newline] ∧
    pairs_from boundary (token ++ [boundary]) ⊆ all_bigrams [[97%N; 98%N]].
Proof.
  apply (token_uses_seen_bigrams replay_positive [[97%N; 98%N]]
           (Model 3 (stoi [[97%N; 98%N]]) (itos [[97%N; 98%N]])
              [[0; 1; 0]; [0; 0; 1]; [1; 0; 0]]
              (normalize [[0; 1; 0]; [0; 0; 1]; [1; 0; 0]]))
           [1; 2; 0]%nat [1; 2; 0]%nat (Walk 0%nat [] [97%N; 98%N; newline])
           replay_positive_lawful).
  - discriminate.
  - apply fits_no_wrap. vm_compute. discriminate.
  - apply build_ab.
  - apply replay_positive_run_ab.
Defined.

(** ** Row and column sums of the count matrix *)

Lemma pairs_from_fst c (l : list N) e :
  (pairs_from c (l ++ [e])).*1 = c :: l.
Proof.
  revert c. induction l as [|d l IH]; intros c; [done|].
  simpl. f_equal. apply IH.
Qed.

Lemma pairs_from_snd c (l : list N) : (pairs_from c l).*2 = l.
Proof.
  revert c. induction l as [|d l IH]; intros c; [done|].
  simpl. f_equal. apply IH.
Qed.

Lemma length_filter_fst st (bs : list (N * N)) i :
  length (filter (λ b : N * N, st !! b.1 = Some i) bs)
  = length (filter (λ x : N, (st : gmap N nat) !! x = Some i) (bs.*1)).
Proof.
  induction bs as [|b bs IH]; [done|].
  rewrite fmap_cons, !filter_cons. case_decide; simpl; by rewrite IH.
Qed.

Lemma length_filter_snd st (bs : list (N * N)) i :
  length (filter (λ b : N * N, st !! b.2 = Some i) bs)
  = length (filter (λ x : N, (st : gmap N nat) !! x = Some i) (bs.*2)).
Proof.
  induction bs as [|b bs IH]; [done|].
  rewrite fmap_cons, !filter_cons. case_decide; simpl; by rewrite IH.
Qed.

(** The first components of the bigrams are the padded names without
    their closing '^', the second components the padded names without
    their opening '^'. *)
Lemma count_firsts (words : list (list N)) c :
  Z.of_nat (length (filter (λ x : N, x = c) ((all_bigrams words).*1)))
  = symbol_count words c.
Proof.
  unfold symbol_count. induction words as [|nm words IH].
  - simpl. by case_decide.
  - rewrite all_bigrams_cons, fmap_app, filter_app, length_app.
    rewrite bigrams_pairs, pairs_from_fst, Nat2Z.inj_add, IH.
    change (mjoin (nm :: words)) with (nm ++ mjoin words).
    rewrite filter_app, length_app, filter_cons. simpl length.
    repeat case_decide; simplify_eq; simpl length; lia.
Qed.

Lemma count_seconds (words : list (list N)) c :
  Z.of_nat (length (filter (λ x : N, x = c) ((all_bigrams words).*2)))
  = symbol_count words c.
Proof.
  unfold symbol_count. induction words as [|nm words IH].
  - simpl. by case_decide.
  - rewrite all_bigrams_cons, fmap_app, filter_app, length_app.
    rewrite bigrams_pairs, pairs_from_snd, Nat2Z.inj_add, IH.
    change (mjoin (nm :: words)) with (nm ++ mjoin words).
    rewrite !filter_app, !length_app, filter_cons, filter_nil. simpl length.
    repeat case_decide; simplify_eq; simpl length; lia.
Qed.

(** Summing the counts of a row over its columns counts the bigrams
    that start with the row's symbol; likewise for a column. *)
Lemma sum_occ_row st n bs i :
  indexed st n bs →
  sum_upto n (occ st bs i)
  = Z.of_nat (length (filter (λ b : N * N, st !! b.1 = Some i) bs)).
Proof.
  induction 1 as [|b bs (a & a' & Ha & Ha' & Hlt & Hlt') _ IH].
  - apply sum_upto_zero.
  - rewrite (sum_upto_ext _ _
      (λ j, (if decide (j = a')
             then if decide (st !! b.1 = Some i) then 1 else 0 else 0)
            + occ st bs i j)).
    + rewrite (sum_upto_add n _ (occ st bs i)), IH, sum_upto_indicator,
        filter_cons by done.
      case_decide; simpl length; lia.
    + intros j Hj. rewrite occ_cons. f_equal. rewrite Ha'.
      destruct (decide (j = a')) as [->|Hne],
        (decide (st !! b.1 = Some i)) as [Hb|Hb].
      * by rewrite decide_True.
      * rewrite decide_False; [done|]. by intros [? _].
      * rewrite decide_False; [done|]. intros [_ [= ?]]. done.
      * rewrite decide_False; [done|]. by intros [? _].
Qed.

Lemma sum_occ_column st n bs j :
  indexed st n bs →
  sum_upto n (λ i, occ st bs i j)
  = Z.of_nat (length (filter (λ b : N * N, st !! b.2 = Some j) bs)).
Proof.
  induction 1 as [|b bs (a & a' & Ha & Ha' & Hlt & Hlt') _ IH].
  - apply sum_upto_zero.
  - rewrite (sum_upto_ext _ _
      (λ i, (if decide (i = a)
             then if decide (st !! b.2 = Some j) then 1 else 0 else 0)
            + occ st bs i j)).
    + rewrite sum_upto_add, IH, sum_upto_indicator, filter_cons by done.
      case_decide; simpl length; lia.
    + intros i Hi. rewrite occ_cons. f_equal. rewrite Ha.
      destruct (decide (i = a)) as [->|Hne],
        (decide (st !! b.2 = Some j)) as [Hb|Hb].
      * by rewrite decide_True.
      * rewrite decide_False; [done|]. by intros [_ ?].
      * rewrite decide_False; [done|]. intros [[= ?] _]. done.
      * rewrite decide_False; [done|]. by intros [_ ?].
Qed.

Lemma row_sum_cells n (r : list Z) f :
  length r = n → (∀ j, (j < n)%nat → r !! j = Some (f j)) →
  row_sum r = sum_upto n f.
Proof.
  intros Hlen Hr. unfold sum_upto. f_equal. apply list_eq. intros j.
  rewrite list_lookup_fmap. destruct (decide (j < n)%nat) as [Hj|Hj].
  - rewrite lookup_seq_lt by done. by apply Hr.
  - rewrite lookup_seq_ge by lia. apply lookup_ge_None. lia.
Qed.

Lemma column_sum_cells n t f j :
  square n t → (j < n)%nat →
  (∀ i j, (i < n)%nat → (j < n)%nat → cell t i j = Some (f i j)) →
  column_sum t j = sum_upto n (λ i, f i j).
Proof.
  intros [Hlen Hrows] Hj Hcell. unfold column_sum, sum_upto. f_equal.
  apply list_eq. intros i. rewrite !list_lookup_fmap.
  destruct (decide (i < n)%nat) as [Hi|Hi].
  - rewrite lookup_seq_lt by done. simpl.
    destruct (lookup_lt_is_Some_2 t i) as [r Hr]; [lia|]. rewrite Hr. simpl.
    specialize (Hcell i j Hi Hj). unfold cell in Hcell.
    rewrite Hr in Hcell. simpl in Hcell. by rewrite Hcell.
  - rewrite lookup_seq_ge by lia. rewrite (proj2 (lookup_ge_None _ _)); [done|lia].
Qed.

Lemma symbol_filter (words : list (list N)) c i (l : list N) :
  stoi words !! c = Some i →
  filter (λ x : N, stoi words !! x = Some i) l = filter (λ x : N, x = c) l.
Proof.
  intros Hc. apply list_filter_iff. intros x. split.
  - intros Hx. eapply stoi_inj; eauto.
  - by intros ->.
Qed.

Lemma row_sum_symbol (words : list (list N)) t c i r :
  no_wrap words → bigram_counts words = Some t →
  stoi words !! c = Some i → t !! i = Some r →
  row_sum r = symbol_count words c.
Proof.
  intros Hfit Ht Hc Hr.
  destruct (no_wrap_cells words t Hfit Ht) as [[Hlen Hrows] Hcell].
  pose proof (stoi_lt _ _ _ Hc) as Hi.
  rewrite Forall_lookup in Hrows.
  rewrite (row_sum_cells (vocab_size words) r
             (occ (stoi words) (all_bigrams words) i)); [|by eauto|].
  - rewrite (sum_occ_row _ _ _ _ (all_bigrams_indexed words)).
    rewrite length_filter_fst, (symbol_filter words c i _ Hc).
    apply count_firsts.
  - intros j Hj. specialize (Hcell i j Hi Hj). unfold cell in Hcell.
    by rewrite Hr in Hcell.
Qed.

Lemma column_sum_symbol (words : list (list N)) t c i :
  no_wrap words → bigram_counts words = Some t →
  stoi words !! c = Some i →
  column_sum t i = symbol_count words c.
Proof.
  intros Hfit Ht Hc.
  destruct (no_wrap_cells words t Hfit Ht) as [Hsq Hcell].
  pose proof (stoi_lt _ _ _ Hc) as Hi.
  rewrite (column_sum_cells _ _ _ _ Hsq Hi Hcell).
  rewrite (sum_occ_column _ _ _ _ (all_bigrams_indexed words)).
  rewrite length_filter_snd, (symbol_filter words c i _ Hc).
  apply count_seconds.
Qed.

(** X11: while the counts fit in int32, the row of a symbol adds up to
    the number of times the symbol occurs as a predecessor: its
    occurrences in the corpus, plus one per name for '^'.  In
    particular the row of '^' in a corpus without '^' adds up to the
    number of names. *)
Theorem row_sum_symbol_count (words : list (list N)) t c i r :
  no_wrap words → bigram_counts words = Some t →
  stoi words !! c = Some i → t !! i = Some r →
  row_sum r = symbol_count words c ∧
  (c = boundary → boundary ∉ mjoin words →
   row_sum r = Z.of_nat (length words)).
Proof.
  intros Hfit Ht Hc Hr.
  pose proof (row_sum_symbol words t c i r Hfit Ht Hc Hr) as Hsum.
  split; [done|]. intros -> Hfresh. rewrite Hsum. unfold symbol_count.
  rewrite decide_True by done.
  assert (filter (λ x : N, x = boundary) (mjoin words) = []) as ->; [|done].
  clear -Hfresh. induction (mjoin words) as [|x l IH]; [done|].
  apply not_elem_of_cons in Hfresh as [Hx Hl].
  rewrite filter_cons, decide_False by done. by apply IH.
Qed.

Lemma row_sum_symbol_count_witness :
  row_sum [1; 1] = symbol_count [[97%N; 97%N]; []] boundary ∧
  (boundary = boundary → boundary ∉ mjoin [[97%N; 97%N]; []] →
   row_sum [1; 1] = Z.of_nat (length [[97%N; 97%N]; @nil N])).
Proof.
  apply (row_sum_symbol_count [[97%N; 97%N]; []]
           [[1; 1]; [1; 1]] boundary 0%nat [1; 1]).
  - apply fits_no_wrap. vm_compute. discriminate.
  - vm_compute. reflexivity.
  - reflexivity.
  - reflexivity.
Defined.

(** X12: while the counts fit in int32, the column of a symbol adds up
    to the same number as its row: every symbol is entered as often as
    it is left. *)
Theorem column_sum_row_sum (words : list (list N)) t c i r :
  no_wrap words → bigram_counts words = Some t →
  stoi words !! c = Some i → t !! i = Some r →
  column_sum t i = symbol_count words c ∧ column_sum t i = row_sum r.
Proof.
  intros Hfit Ht Hc Hr.
  rewrite (row_sum_symbol words t c i r Hfit Ht Hc Hr).
  split; by apply column_sum_symbol.
Qed.

Lemma column_sum_row_sum_witness :
  column_sum [[1; 1]; [1; 1]] 1 = symbol_count [[97%N; 97%N]; []] 97%N ∧
  column_sum [[1; 1]; [1; 1]] 1 = row_sum [1; 1].
Proof.
  apply (column_sum_row_sum [[97%N; 97%N]; []]
           [[1; 1]; [1; 1]] 97%N 1%nat [1; 1]).
  - apply fits_no_wrap. vm_compute. discriminate.
  - vm_compute. reflexivity.
  - vm_compute. reflexivity.
  - reflexivity.
Defined.

(** ** A corpus that contains the character '^' *)

(** X13: when '^' occurs in the corpus, [stoi['^'] = 0] overwrites the
    index the comprehension gave it: that index, one more than the
    position of '^' in [characters], is below [vocab_size] but belongs
    to no symbol; its row and its column of the count matrix are all 0
    and its row of the probability table is all NaN, which
    [torch.multinomial] would reject. *)
Theorem caret_leaves_unused_index (words : list (list N)) :
  boundary ∈ mjoin words →
  ∃ k t row,
    characters words !! k = Some boundary ∧
    (S k < vocab_size words)%nat ∧
    itos words !! S k = None ∧
    (∀ c, stoi words !! c ≠ Some (S k)) ∧
    bigram_counts words = Some t ∧
    (∀ j, (j < vocab_size words)%nat →
          cell t (S k) j = Some 0 ∧ cell t j (S k) = Some 0) ∧
    normalize t !! S k = Some row ∧
    Forall (λ x, x = NaN) row ∧
    multinomial_weights row = None.
Proof.
  intros Hin.
  apply elem_of_characters, list_elem_of_lookup in Hin as [k Hk].
  assert (S k < vocab_size words)%nat as Hlt.
  { unfold vocab_size. apply lookup_lt_Some in Hk. lia. }
  assert (∀ c, stoi words !! c ≠ Some (S k)) as Hfree.
  { intros c Hc. apply stoi_lookup in Hc as [[_ ?]|[Hne (k' & Hk' & Hc)]];
      [done|].
    assert (k' = k) as -> by lia. congruence. }
  destruct (bigram_counts_spec words) as (t & Ht & [Hlen Hrows] & Hcell).
  assert (∀ i j, i = S k ∨ j = S k →
            occ (stoi words) (all_bigrams words) i j = 0) as Hocc.
  { intros i j Hij.
    pose proof (occ_nonneg (stoi words) (all_bigrams words) i j).
    destruct (decide (0 < occ (stoi words) (all_bigrams words) i j))
      as [Hpos|]; [|lia].
    apply occ_pos in Hpos as (b & _ & H1 & H2).
    destruct Hij as [-> | ->]; [by apply Hfree in H1|by apply Hfree in H2]. }
  assert (∀ j, (j < vocab_size words)%nat →
            cell t (S k) j = Some 0 ∧ cell t j (S k) = Some 0) as Hzero.
  { intros j Hj. rewrite !Hcell, !Hocc by (done || auto). done. }
  destruct (lookup_lt_is_Some_2 t (S k)) as [r Hr]; [lia|].
  rewrite Forall_lookup in Hrows. pose proof (Hrows _ _ Hr) as Hrlen.
  assert (∀ j, (j < vocab_size words)%nat → r !! j = Some 0) as Hr0.
  { intros j Hj. destruct (Hzero j Hj) as [Hc _].
    unfold cell in Hc. by rewrite Hr in Hc. }
  assert (row_sum r = 0) as Hsum.
  { rewrite (row_sum_cells _ r (λ _, 0) Hrlen Hr0). apply sum_upto_zero. }
  assert (Forall (λ c : Z, 0 ≤ c) r) as Hnn.
  { apply Forall_lookup. intros j c Hc.
    assert (j < vocab_size words)%nat
      by (rewrite <- Hrlen; by apply lookup_lt_Some in Hc).
    rewrite Hr0 in Hc by done. by injection Hc as <-. }
  pose proof (normalize_row_zero_sum r Hsum Hnn) as Hnan.
  exists k, t, (normalize_row (inject_Z <$> r)).
  split_and!; try done.
  - destruct (itos words !! S k) as [c|] eqn:Hc; [|done].
    apply itos_lookup in Hc. by apply Hfree in Hc.
  - by apply normalize_lookup.
  - apply multinomial_weights_nan; [|done].
    destruct r; [simpl in Hrlen; lia|done].
Qed.

Lemma caret_leaves_unused_index_witness :
  ∃ k t row,
    characters [[97%N; 94%N]] !! k = Some boundary ∧
    (S k < vocab_size [[97%N; 94%N]])%nat ∧
    itos [[97%N; 94%N]] !! S k = None ∧
    (∀ c, stoi [[97%N; 94%N]] !! c ≠ Some (S k)) ∧
    bigram_counts [[97%N; 94%N]] = Some t ∧
    (∀ j, (j < vocab_size [[97%N; 94%N]])%nat →
          cell t (S k) j = Some 0 ∧ cell t j (S k) = Some 0) ∧
    normalize t !! S k = Some row ∧
    Forall (λ x, x = NaN) row ∧
    multinomial_weights row = None.
Proof.
  apply (caret_leaves_unused_index [[97%N; 94%N]]).
  apply list_elem_of_In. simpl. right. by left.
Defined.

(** ** Empty names *)

Lemma caret_pair_in_bigrams (nm : list N) :
  (boundary, boundary) ∈ bigrams nm → nm = [] ∨ boundary ∈ nm.
Proof.
  intros Hin. destruct nm as [|x l]; [by left|right].
  assert (boundary ∈ (bigrams (x :: l)).*1) as Hfst.
  { apply list_elem_of_fmap. exists (boundary, boundary). done. }
  rewrite bigrams_pairs in Hin, Hfst.
  change ((x :: l) ++ [boundary]) with (x :: (l ++ [boundary])) in *.
  simpl in Hin, Hfst.
  apply elem_of_cons in Hin as [[= <-]|Hin]; [left|].
  assert (boundary ∈ (pairs_from x (l ++ [boundary])).*1) as Hx.
  { apply list_elem_of_fmap. exists (boundary, boundary). done. }
  by rewrite pairs_from_fst in Hx.
Qed.

(** X14: under the conditions of X10, when no name of the corpus is
    empty and '^' does not occur in it, the loop never prints an empty
    name: the first draw is never the index of '^'. *)
Theorem token_not_empty {gen : Type}
    (multinomial : list fp → gen → option (nat * gen))
    (words : list (list N)) (m : model) (seed : gen) ds w' :
  lawful multinomial → words ≠ [] → no_wrap words →
  [] ∉ words → boundary ∉ mjoin words →
  build words = Some m →
  generates multinomial (m_probs m) (m_itos m) (Walk 0%nat seed []) ds w' →
  ∃ c token, printed w' = c :: token ++ [newline] ∧ (2 ≤ length ds)%nat.
Proof.
  intros Hlaw Hne Hfit Hnoempty Hfresh Hm Hrun.
  unfold build in Hm. destruct (bigram_counts words) as [t|] eqn:Ht; [|done].
  simpl in Hm. injection Hm as <-. simpl in *.
  destruct (generates_bigrams multinomial Hlaw words t Ht Hfit Hne _ _ _
              boundary Hrun) as (token & Hp & Hsub);
    [by apply itos_boundary|].
  destruct token as [|c token].
  - exfalso. assert ((boundary, boundary) ∈ all_bigrams words) as Hin
      by (apply Hsub; simpl; left).
    apply list_elem_of_join in Hin as (l & Hin & Hl).
    apply list_elem_of_fmap in Hl as (nm & -> & Hnm).
    apply caret_pair_in_bigrams in Hin as [->|Hin]; [done|].
    apply Hfresh, list_elem_of_join. eauto.
  - exists c, token. split; [done|].
    destruct (generates_shape _ _ _ _ _ _ Hrun)
      as (ds0 & token' & -> & _ & Hall & _ & Hp').
    rewrite Hp in Hp'. simpl in Hp'. rewrite app_comm_cons in Hp'.
    apply app_inj_tail in Hp' as [<- _].
    apply Forall2_length in Hall. rewrite length_app. simpl in *. lia.
Qed.

Lemma token_not_empty_witness :
  ∃ c token, [97%N; 98%N; newline] = c :: token ++ [newline] ∧
             (2 ≤ length [1; 2; 0]%nat)%nat.
Proof.
  apply (token_not_empty replay_positive [[97%N; 98%N]]
           (Model 3 (stoi [[97%N; 98%N]]) (itos [[97%N; 98%N]])
              [[0; 1; 0]; [0; 0; 1]; [1; 0; 0]]
              (normalize [[0; 1; 0]; [0; 0; 1]; [1; 0; 0]]))
           [1; 2; 0]%nat [1; 2; 0]%nat (Walk 0%nat [] [97%N; 98%N; newline])
           replay_positive_lawful).
  - discriminate.
  - apply fits_no_wrap. vm_compute. discriminate.
  - intros H. apply list_elem_of_In in H. simpl in H.
    destruct H as [H|[]]; discriminate H.
  - intros H. apply list_elem_of_In in H. simpl in H.
    destruct H as [H|[H|[]]]; discriminate H.
  - apply build_ab.
  - apply replay_positive_run_ab.
Defined.

(** X15: conversely, when the corpus contains an empty name and its
    counts fit in int32, the very first draw ends the loop with
    positive probability: the script can print an empty name. *)
Theorem empty_name_can_be_generated (words : list (list N)) :
  [] ∈ words → no_wrap words →
  ∃ m, build words = Some m ∧
       (0 < token_prob (m_probs m) (m_itos m) 1 0)%Q.
Proof.
  intros Hin Hfit.
  destruct (bigram_counts_spec words) as (t & Ht & _).
  exists (Model (vocab_size words) (stoi words) (itos words) t (normalize t)).
  split; [unfold build; by rewrite Ht|]. simpl.
  apply (route_hit words t Ht Hfit boundary 1); [|apply stoi_boundary].
  apply route_end. apply (bigrams_all_bigrams words [] Hin). simpl. left.
Qed.

Lemma empty_name_can_be_generated_witness :
  ∃ m, build [[97%N]; []] = Some m ∧
       (0 < token_prob (m_probs m) (m_itos m) 1 0)%Q.
Proof.
  apply (empty_name_can_be_generated [[97%N]; []]).
  - apply list_elem_of_In. simpl. right. by left.
  - apply fits_no_wrap. vm_compute. discriminate.
Defined.

(** ** What a run reads of its draws *)

Lemma symbols_of_draws (its : gmap nat N) (ds : list nat) (k1 k2 : list N) :
  Forall2 (λ d c, its !! d = Some c) ds k1 →
  Forall2 (λ d c, its !! d = Some c) ds k2 → k1 = k2.
Proof.
  intros H1. revert k2. induction H1 as [|d c ds k1 Hc _ IH]; intros k2 H2.
  - by apply Forall2_nil_inv_l in H2.
  - apply Forall2_cons_inv_l in H2 as (c' & k2' & Hc' & H2 & ->).
    rewrite Hc in Hc'. injection Hc' as <-. f_equal. by apply IH.
Qed.

(** X16: what the loop prints is determined by the indices drawn, and
    the loop reads its draws exactly up to the first index of '^': of
    two completed runs with the same [itos] -- whatever the generators,
    their seeds and the tables -- whose sequences of draws agree as far
    as the shorter one goes, neither has drawn more than the other, and
    both have printed the same output. *)
Theorem output_determined_by_draws {gen1 gen2 : Type}
    (multinomial1 : list fp → gen1 → option (nat * gen1))
    (multinomial2 : list fp → gen2 → option (nat * gen2))
    (probs1 probs2 : list (list fp)) (its : gmap nat N)
    (seed1 : gen1) (seed2 : gen2) ds1 w1 ds2 w2 :
  generates multinomial1 probs1 its (Walk 0%nat seed1 []) ds1 w1 →
  generates multinomial2 probs2 its (Walk 0%nat seed2 []) ds2 w2 →
  ds1 `prefix_of` ds2 →
  ds1 = ds2 ∧ printed w1 = printed w2.
Proof.
  intros H1 H2 [k Hk].
  destruct (generates_shape _ _ _ _ _ _ H1)
    as (ds01 & tok1 & -> & Hb1 & Hall1 & _ & Hp1).
  destruct (generates_shape _ _ _ _ _ _ H2)
    as (ds02 & tok2 & -> & _ & Hall2 & Hnot2 & Hp2).
  assert (k = []) as ->.
  { destruct k as [|y k _] using rev_ind; [done|]. exfalso.
    rewrite !app_assoc in Hk. apply app_inj_tail in Hk as [Hk _].
    assert (sampled_index w1 ∈ ds02) as Hin by (rewrite Hk; set_solver).
    apply list_elem_of_lookup in Hin as [n Hn].
    destruct (Forall2_lookup_l _ _ _ _ _ Hall2 Hn) as (c & Hc & Hits).
    rewrite Hb1 in Hits. injection Hits as <-.
    apply Hnot2, list_elem_of_lookup. eauto. }
  rewrite app_nil_r in Hk. apply app_inj_tail in Hk as [-> Hlast].
  split; [by rewrite Hlast|].
  rewrite Hp1, Hp2. simpl.
  by rewrite (symbols_of_draws its ds01 tok1 tok2 Hall1 Hall2).
Qed.

Lemma output_determined_by_draws_witness :
  [1; 2; 0]%nat = [1; 2; 0]%nat ∧
  [97%N; 98%N; newline] = [97%N; 98%N; newline].
Proof.
  apply (output_determined_by_draws replay replay_positive _ _ _ _ _ _ _ _ _
           replay_run_ab replay_positive_run_ab).
  by exists [].
Defined.
